(** * PredictionMarket: market lifecycle, bet escrow, resolution and payout

    The Solidity contract [contracts/PredictionMarket.sol] is not part of the
    sources at hand: only its test suite [test/PredictionMarket.ts] and the
    documentation are.  The contract is therefore modelled from the
    specification of the Market Ledger Engine (sections 3, 4 and 7), with the
    order of the checks of each operation taken from the order in which the
    specification lists them (which the test suite agrees with where it
    exercises two failing checks at once: a non-creator resolving an active
    market gets "Only creator can resolve").

    Amounts are wei, timestamps are seconds; both are integers ([Z]).
    Addresses are [nat]. *)

From Stdlib Require Import ZArith Bool.
From stdpp Require Import base gmap strings list.

Open Scope Z_scope.

Definition addr := nat.

(** ** Constants *)

(** Modelled from the spec: [MIN_BET] = 0.001 ether, [MAX_BET] = 10 ether
    (bounds inclusive), [EMERGENCY_TIMELOCK] = 30 days. *)
Definition MIN_BET : Z := 1000000000000000.
Definition MAX_BET : Z := 10000000000000000000.
Definition EMERGENCY_TIMELOCK : Z := 30 * 24 * 60 * 60.

(** ** Data model *)

(** Modelled from the spec: the error taxonomy of section 7. *)
Inductive err :=
| InvalidArgument
| NotFound
| InvalidState
| Unauthorized
| AlreadyExists
| AlreadyClaimed
| NotAWinner
| TransferFailed.

(** Modelled from the spec: the Market record of section 3; [resolvedAt]
    is the timestamp the emergency timelock of section 4.5 counts from. *)
Record Market := mkMarket {
  id : nat;
  question : string;
  creator : addr;
  createdAt : Z;
  endTime : Z;
  resolved : bool;
  outcome : bool;
  resolvedAt : Z;
  totalYesAmount : Z;
  totalNoAmount : Z
}.

(** Modelled from the spec: the Bet record of section 3. *)
Record Bet := mkBet {
  amount : Z;
  prediction : bool;
  claimed : bool
}.

(** Modelled from the spec: the engine's store (sections 3 and 9): markets
    by id, the market counter, bets keyed by [(marketId, participant)]
    and the value held in escrow for each market. *)
Record State := mkState {
  markets : gmap nat Market;
  marketCount : nat;
  bets : gmap (nat * addr) Bet;
  escrow : gmap nat Z
}.

Definition init : State := mkState ∅ 0 ∅ ∅.

(** Observable effects of a call, in the order they happen: writes to the
    store and external value transfers into and out of a market's escrow. *)
Inductive ev :=
| EvWriteMarket (m : nat) (mk : Market)
| EvWriteCount (n : nat)
| EvWriteBet (m : nat) (p : addr) (b : Bet)
| EvDeposit (m : nat) (from : addr) (amt : Z)
| EvPayout (m : nat) (to : addr) (amt : Z).

(** The transaction environment: block time, [msg.sender], [msg.value] and
    whether the value-transfer primitive succeeds for this call. *)
Record Env := mkEnv {
  now : Z;
  caller : addr;
  msg_value : Z;
  transfer_ok : bool
}.

(** ** A state, error and effect monad *)

Definition M (A : Type) := State -> (err + A) * State * list ev.

Definition ret {A} (a : A) : M A := fun s => (inr a, s, []).

Definition bind {A B} (c : M A) (f : A -> M B) : M B :=
  fun s =>
    match c s with
    | (inl e, s', evs) => (inl e, s', evs)
    | (inr a, s', evs) =>
        match f a s' with
        | (r, s'', evs') => (r, s'', evs ++ evs')
        end
    end.

Notation "'let*' x := c 'in' k" := (bind c (fun x => k))
  (at level 200, x name, c at level 100, k at level 200).
Notation "c ;; k" := (bind c (fun _ => k)) (at level 100, right associativity).

Definition throw {A} (e : err) : M A := fun s => (inl e, s, []).

Definition get : M State := fun s => (inr s, s, []).

(** [require(cond, reason)] *)
Definition require (b : bool) (e : err) : M unit :=
  if b then ret tt else throw e.

Definition from_option {A} (o : option A) (e : err) : M A :=
  match o with Some a => ret a | None => throw e end.

Definition write_market (m : nat) (mk : Market) : M unit :=
  fun s => (inr tt, mkState (<[m := mk]> (markets s)) (marketCount s)
                            (bets s) (escrow s), [EvWriteMarket m mk]).

Definition write_count (n : nat) : M unit :=
  fun s => (inr tt, mkState (markets s) n (bets s) (escrow s), [EvWriteCount n]).

Definition write_bet (m : nat) (p : addr) (b : Bet) : M unit :=
  fun s => (inr tt, mkState (markets s) (marketCount s)
                            (<[(m, p) := b]> (bets s)) (escrow s),
            [EvWriteBet m p b]).

Definition balance (s : State) (m : nat) : Z := default 0 (escrow s !! m).

(** Modelled from the spec: the value-transfer primitive of section 6, into
    a market's escrow ... *)
Definition deposit (env : Env) (m : nat) (from : addr) (amt : Z) : M unit :=
  fun s =>
    if transfer_ok env
    then (inr tt, mkState (markets s) (marketCount s) (bets s)
                          (<[m := balance s m + amt]> (escrow s)),
          [EvDeposit m from amt])
    else (inl TransferFailed, s, []).

(** ... and out of it: it fails when the environment reports a failure or
    when the escrow does not hold the amount. *)
Definition pay_out (env : Env) (m : nat) (to : addr) (amt : Z) : M unit :=
  fun s =>
    if transfer_ok env && (amt <=? balance s m)
    then (inr tt, mkState (markets s) (marketCount s) (bets s)
                          (<[m := balance s m - amt]> (escrow s)),
          [EvPayout m to amt])
    else (inl TransferFailed, s, []).

(** ** Operations *)

(** Modelled from the spec: section 4.1, [createMarket(question, duration)]. *)
Definition createMarket (env : Env) (q : string) (duration : Z) : M nat :=
  require (negb (String.eqb q "")) InvalidArgument ;;
  require (0 <? duration) InvalidArgument ;;
  let* s := get in
  let mid := marketCount s in
  write_market mid (mkMarket mid q (caller env) (now env) (now env + duration)
                             false false 0 0 0) ;;
  write_count (S mid) ;;
  ret mid.

(** Modelled from the spec: section 4.2, [placeBet(marketId, prediction, amount,
    participant)], the amount being [msg.value] and the participant
    [msg.sender]. *)
Definition placeBet (env : Env) (mid : nat) (pred : bool) : M unit :=
  let* s := get in
  let* mk := from_option (markets s !! mid) NotFound in
  require (now env <? endTime mk) InvalidState ;;
  require (negb (resolved mk)) InvalidState ;;
  let amt := msg_value env in
  require ((MIN_BET <=? amt) && (amt <=? MAX_BET)) InvalidArgument ;;
  require (negb (bool_decide (is_Some (bets s !! (mid, caller env)))))
          AlreadyExists ;;
  deposit env mid (caller env) amt ;;
  write_bet mid (caller env) (mkBet amt pred false) ;;
  write_market mid
    (if pred
     then mkMarket (id mk) (question mk) (creator mk) (createdAt mk)
            (endTime mk) (resolved mk) (outcome mk) (resolvedAt mk)
            (totalYesAmount mk + amt) (totalNoAmount mk)
     else mkMarket (id mk) (question mk) (creator mk) (createdAt mk)
            (endTime mk) (resolved mk) (outcome mk) (resolvedAt mk)
            (totalYesAmount mk) (totalNoAmount mk + amt)).

(** Modelled from the spec: section 4.2, [getBet(marketId, participant)]. *)
Definition getBet (s : State) (mid : nat) (p : addr) : bool * bool :=
  match bets s !! (mid, p) with
  | Some b => (true, claimed b)
  | None => (false, false)
  end.

(** Modelled from the spec: section 4.3, [resolveMarket(marketId, outcome, caller)]. *)
Definition resolveMarket (env : Env) (mid : nat) (o : bool) : M unit :=
  let* s := get in
  let* mk := from_option (markets s !! mid) NotFound in
  require (Nat.eqb (caller env) (creator mk)) Unauthorized ;;
  require (endTime mk <=? now env) InvalidState ;;
  require (negb (resolved mk)) InvalidState ;;
  write_market mid
    (mkMarket (id mk) (question mk) (creator mk) (createdAt mk) (endTime mk)
              true o (now env) (totalYesAmount mk) (totalNoAmount mk)).

(** Modelled from the spec: the winning side's pool of a resolved market
    (section 4.4). *)
Definition winningSideTotal (mk : Market) : Z :=
  if outcome mk then totalYesAmount mk else totalNoAmount mk.

(** Modelled from the spec: section 4.4, [payout = amount * (totalYesAmount +
    totalNoAmount) / winningSideTotal], dividing with truncation toward
    zero. *)
Definition payoutOf (mk : Market) (b : Bet) : Z :=
  Z.quot (amount b * (totalYesAmount mk + totalNoAmount mk))
         (winningSideTotal mk).

(** Modelled from the spec: section 4.4, [claimWinnings(marketId, participant)].
    The claimed flag is written before the payout is transferred, and is
    not rolled back when the transfer fails. *)
Definition claimWinnings (env : Env) (mid : nat) : M unit :=
  let* s := get in
  let* b := from_option (bets s !! (mid, caller env)) NotFound in
  let* mk := from_option (markets s !! mid) NotFound in
  require (resolved mk) InvalidState ;;
  require (negb (claimed b)) AlreadyClaimed ;;
  require (Bool.eqb (prediction b) (outcome mk)) NotAWinner ;;
  require (negb (winningSideTotal mk =? 0)) NotAWinner ;;
  let payout := payoutOf mk b in
  write_bet mid (caller env) (mkBet (amount b) (prediction b) true) ;;
  pay_out env mid (caller env) payout.

(** Modelled from the spec: section 4.5, [emergencyWithdraw(marketId, caller)]
    transfers the market's remaining escrow to its creator. *)
Definition emergencyWithdraw (env : Env) (mid : nat) : M unit :=
  let* s := get in
  let* mk := from_option (markets s !! mid) NotFound in
  require (Nat.eqb (caller env) (creator mk)) Unauthorized ;;
  require (resolved mk) InvalidState ;;
  require (resolvedAt mk + EMERGENCY_TIMELOCK <=? now env) InvalidState ;;
  pay_out env mid (creator mk) (balance s mid).

(** ** Transactions and runs *)

Inductive call :=
| CreateMarket (q : string) (duration : Z)
| PlaceBet (mid : nat) (pred : bool)
| ResolveMarket (mid : nat) (o : bool)
| ClaimWinnings (mid : nat)
| EmergencyWithdraw (mid : nat).

Definition exec (env : Env) (c : call) : M unit :=
  match c with
  | CreateMarket q d => createMarket env q d ;; ret tt
  | PlaceBet mid pred => placeBet env mid pred
  | ResolveMarket mid o => resolveMarket env mid o
  | ClaimWinnings mid => claimWinnings env mid
  | EmergencyWithdraw mid => emergencyWithdraw env mid
  end.

(** One serialised transaction: its effects are appended to the history. *)
Definition step (st : State * list ev) (ec : Env * call) : State * list ev :=
  match exec ec.1 ec.2 st.1 with
  | (_, s', evs) => (s', st.2 ++ evs)
  end.

Definition run (st : State * list ev) (cs : list (Env * call))
  : State * list ev := fold_left step cs st.

Definition reach (s : State) (tr : list ev) : Prop :=
  exists cs, run (init, []) cs = (s, tr).

(** Value paid out of, and deposited into, a market's escrow over a history. *)
Fixpoint paid_out (m : nat) (tr : list ev) : Z :=
  match tr with
  | [] => 0
  | EvPayout m' _ a :: tr' => (if Nat.eqb m m' then a else 0) + paid_out m tr'
  | _ :: tr' => paid_out m tr'
  end.

Fixpoint deposited (m : nat) (tr : list ev) : Z :=
  match tr with
  | [] => 0
  | EvDeposit m' _ a :: tr' => (if Nat.eqb m m' then a else 0) + deposited m tr'
  | _ :: tr' => deposited m tr'
  end.

(** The sum of the bet amounts placed on a market: its two pools. *)
Definition pool (s : State) (m : nat) : Z :=
  match markets s !! m with
  | Some mk => totalYesAmount mk + totalNoAmount mk
  | None => 0
  end.

(** ** Scenarios *)

Definition alice : addr := 1%nat.
Definition bob : addr := 2%nat.
Definition creatorA : addr := 3%nat.
Definition carol : addr := 4%nat.
Definition e (t : Z) (who : addr) (v : Z) : Env := mkEnv t who v true.

Definition ether : Z := 1000000000000000000.

(** The market of the test suite: one week, bets on both sides. *)
Definition scenario_open : list (Env * call) :=
  [ (e 0 creatorA 0, CreateMarket "Winnings test" 604800);
    (e 10 alice (ether / 10), PlaceBet 0 true);
    (e 11 bob (3 * ether / 10), PlaceBet 0 false);
    (e 12 carol (2 * ether / 10), PlaceBet 0 true) ].

Definition scenario_resolved : list (Env * call) :=
  scenario_open ++ [(e 604800 creatorA 0, ResolveMarket 0 true)].

Definition scenario_settled : list (Env * call) :=
  scenario_resolved ++
  [ (e 604801 alice 0, ClaimWinnings 0);
    (e (604800 + EMERGENCY_TIMELOCK) creatorA 0, EmergencyWithdraw 0) ].

Definition st_open : State * list ev := run (init, []) scenario_open.
Definition st_resolved : State * list ev := run (init, []) scenario_resolved.
Definition st_settled : State * list ev := run (init, []) scenario_settled.

(** * The FHEVM examples: [FHECounter], [EncryptSingleValue],
      [AccessControlExample] and [FHEAdd]

    These contracts are in the sources ([unnamed/part_002],
    [contracts/basic/EncryptSingleValue.sol],
    [contracts/basic/AccessControlExample.sol], [unnamed/part_003]).  The
    [FHE] library they call is not; its behaviour is modelled here as far as
    the contracts use it:
    - an [euint32] is a handle; handle 0 is the uninitialised value, and the
      host hands out fresh handles in sequence from 1;
    - each ciphertext holds its plaintext, reduced modulo 2^32, and its
      persistent access list ([FHE.allow], [FHE.allowThis]);
    - [FHE.fromExternal], [FHE.asEuint32] and the result of an operation are
      allowed to the calling contract for the current transaction only;
    - an operation and [FHE.allow] revert with [SenderNotAllowed] unless
      the contract may use the handle;
    - [FHE.add] and [FHE.sub] read an uninitialised operand as
      [FHE.asEuint32(0)];
    - a user decryption of a handle succeeds when both the user and the
      contract are on its persistent access list. *)

Module FHEVM.

Abbreviation handle := N.

Record Ciphertext := mkCt { plaintext : Z; acl : list addr }.

Record Host := mkHost {
  cts : gmap N Ciphertext;
  next_handle : N;
  transient : list (handle * addr)
}.

Definition host0 : Host := mkHost ∅ 1 [].

Inductive revert :=
| SenderNotAllowed (a : addr)
| Reverted (reason : string).

Definition FHE (A : Type) := Host -> revert + (A * Host).

Definition ret {A} (a : A) : FHE A := fun h => inr (a, h).

Definition bind {A B} (c : FHE A) (f : A -> FHE B) : FHE B :=
  fun h => match c h with inl r => inl r | inr (a, h') => f a h' end.

Notation "'let!' x := c 'in' k" := (bind c (fun x => k))
  (at level 200, x name, c at level 100, k at level 200).

Definition fail {A} (r : revert) : FHE A := fun _ => inl r.

Definition wrap32 (z : Z) : Z := z mod 2 ^ 32.

Definition isInitialized (k : handle) : bool := negb (N.eqb k 0).

Definition has (a : addr) (l : list addr) : bool := existsb (Nat.eqb a) l.

Definition isAllowed (h : Host) (k : handle) (a : addr) : bool :=
  existsb (fun p => N.eqb p.1 k && Nat.eqb p.2 a) (transient h) ||
  match cts h !! k with Some ct => has a (acl ct) | None => false end.

(** A new ciphertext, allowed to [self] for the current transaction. *)
Definition fresh (self : addr) (v : Z) : FHE handle :=
  fun h => let k := next_handle h in
    inr (k, mkHost (<[k := mkCt (wrap32 v) []]> (cts h)) (k + 1)%N
                   ((k, self) :: transient h)).

Definition fromExternal (self : addr) (input : Z) : FHE handle := fresh self input.

Definition asEuint32 (self : addr) (v : Z) : FHE handle := fresh self v.

Definition plain (h : Host) (k : handle) : Z := default 0 (plaintext <$> cts h !! k).

Definition require_allowed (self : addr) (k : handle) : FHE unit :=
  fun h => if isAllowed h k self then inr (tt, h) else inl (SenderNotAllowed self).

(** [FHE.add] and [FHE.sub]: uninitialised operands become [asEuint32(0)],
    both operands must be allowed to the contract, and the result wraps
    around modulo 2^32. *)
Definition binop (f : Z -> Z -> Z) (self : addr) (a b : handle) : FHE handle :=
  let! a := (if isInitialized a then ret a else asEuint32 self 0) in
  let! b := (if isInitialized b then ret b else asEuint32 self 0) in
  let! _ := require_allowed self a in
  let! _ := require_allowed self b in
  fun h => fresh self (f (plain h a) (plain h b)) h.

Definition add (self : addr) (a b : handle) : FHE handle := binop Z.add self a b.

Definition sub (self : addr) (a b : handle) : FHE handle := binop Z.sub self a b.

(** [FHE.allow(k, a)]: the contract must be allowed to use [k]; [a] is
    added to the persistent access list of [k]. *)
Definition allow (self : addr) (k : handle) (a : addr) : FHE unit :=
  let! _ := require_allowed self k in
  fun h => inr (tt, mkHost (alter (fun ct => mkCt (plaintext ct) (a :: acl ct)) k (cts h))
                          (next_handle h) (transient h)).

Definition allowThis (self : addr) (k : handle) : FHE unit := allow self k self.

(** The end of a transaction drops the transient allowances. *)
Definition end_tx (h : Host) : Host := mkHost (cts h) (next_handle h) [].

(** One transaction of a contract: a revert leaves no trace. *)
Definition tx {S} (f : S -> FHE S) (st : S) (h : Host) : revert + (S * Host) :=
  match f st h with
  | inl r => inl r
  | inr (st', h') => inr (st', end_tx h')
  end.

(** The user decryption of handle [k] of [contract] for [user]. *)
Definition userDecrypt (h : Host) (contract : addr) (k : handle) (user : addr)
  : option Z :=
  match cts h !! k with
  | Some ct => if has user (acl ct) && has contract (acl ct)
               then Some (plaintext ct) else None
  | None => None
  end.

End FHEVM.

(** [contract FHECounter], part_002 lines 9-52. *)
Module FHECounter.

Import FHEVM.

Record FHECounter := mkCounter { _count : handle }.

Definition deploy : FHECounter := mkCounter 0%N.

Definition getCount (st : FHECounter) : handle := _count st.

Definition increment (self sender : addr) (inputEuint32 : Z) (st : FHECounter)
  : FHE FHECounter :=
  let! encryptedAmount := fromExternal self inputEuint32 in
  let! c := add self (_count st) encryptedAmount in
  let! _ := allowThis self c in
  let! _ := allow self c sender in
  ret (mkCounter c).

Definition decrement (self sender : addr) (inputEuint32 : Z) (st : FHECounter)
  : FHE FHECounter :=
  let! encryptedAmount := fromExternal self inputEuint32 in
  let! c := sub self (_count st) encryptedAmount in
  let! _ := allowThis self c in
  let! _ := allow self c sender in
  ret (mkCounter c).

Definition reset (self sender : addr) (st : FHECounter) : FHE FHECounter :=
  let! c := asEuint32 self 0 in
  let! _ := allowThis self c in
  let! _ := allow self c sender in
  ret (mkCounter c).

(** The transactions sent to the counter, and their sequence from the
    deployment: a reverted transaction leaves the state as it was. *)
Inductive op :=
| Increment (sender : addr) (v : Z)
| Decrement (sender : addr) (v : Z)
| Reset (sender : addr).

Definition sender_of (o : op) : addr :=
  match o with Increment u _ | Decrement u _ | Reset u => u end.

Definition exec_op (self : addr) (o : op) : FHECounter -> FHE FHECounter :=
  match o with
  | Increment u v => increment self u v
  | Decrement u v => decrement self u v
  | Reset u => reset self u
  end.

Definition step (self : addr) (sh : FHECounter * Host) (o : op) : FHECounter * Host :=
  match tx (exec_op self o) sh.1 sh.2 with inl _ => sh | inr sh' => sh' end.

Definition run (self : addr) (ops : list op) : FHECounter * Host :=
  fold_left (step self) ops (deploy, host0).

(** The value the counter holds after a sequence of operations, each taken
    modulo 2^32 as [FHE.add] and [FHE.sub] wrap around. *)
Definition apply_op (x : Z) (o : op) : Z :=
  match o with
  | Increment _ v => wrap32 (x + wrap32 v)
  | Decrement _ v => wrap32 (x - wrap32 v)
  | Reset _ => 0
  end.

Definition net (ops : list op) : Z := fold_left apply_op ops 0.

End FHECounter.

(** [contract EncryptSingleValue], contracts/basic/EncryptSingleValue.sol. *)
Module EncryptSingleValue.

Import FHEVM.

Record EncryptSingleValue := mkESV { _encryptedValue : handle; _lastSetter : addr }.

Definition deploy : EncryptSingleValue := mkESV 0%N 0%nat.




End EncryptSingleValue.

(** [contract AccessControlExample], contracts/basic/AccessControlExample.sol. *)
Module AccessControlExample.

Import FHEVM.

Record AccessControlExample := mkACE { _userSecrets : gmap addr handle }.

Definition deploy : AccessControlExample := mkACE ∅.

(** A Solidity mapping reads a missing key as the zero handle. *)
Definition secret_of (st : AccessControlExample) (u : addr) : handle :=
  default 0%N (_userSecrets st !! u).

Definition storeSecret (self sender : addr) (encryptedSecret : Z)
    (st : AccessControlExample) : FHE AccessControlExample :=
  let! secret := fromExternal self encryptedSecret in
  let st' := mkACE (<[sender := secret]> (_userSecrets st)) in
  let! _ := allowThis self secret in
  let! _ := allow self secret sender in
  ret st'.


Definition delegateSecret (self sender recipient : addr) (st : AccessControlExample)
  : FHE AccessControlExample :=
  let secret := secret_of st sender in
  let! _ := (if N.eqb secret 0%N then fail (Reverted "No secret to delegate")
             else ret tt) in
  let! _ := allow self secret recipient in
  ret st.

Inductive op :=
| StoreSecret (sender : addr) (v : Z)
| DelegateSecret (sender recipient : addr).

Definition exec_op (self : addr) (o : op) : AccessControlExample -> FHE AccessControlExample :=
  match o with
  | StoreSecret u v => storeSecret self u v
  | DelegateSecret u r => delegateSecret self u r
  end.

Definition step (self : addr) (sh : AccessControlExample * Host) (o : op)
  : AccessControlExample * Host :=
  match tx (exec_op self o) sh.1 sh.2 with inl _ => sh | inr sh' => sh' end.

Definition run (self : addr) (ops : list op) : AccessControlExample * Host :=
  fold_left (step self) ops (deploy, host0).

End AccessControlExample.

(** [contract FHEAdd], part_003 lines 8-39. *)
Module FHEAdd.

Import FHEVM.

Record FHEAdd := mkFHEAdd { _result : handle }.

Definition deploy : FHEAdd := mkFHEAdd 0%N.

Definition add (self sender : addr) (encryptedA encryptedB : Z) (st : FHEAdd)
  : FHE FHEAdd :=
  let! a := fromExternal self encryptedA in
  let! b := fromExternal self encryptedB in
  let! sum := FHEVM.add self a b in
  let st' := mkFHEAdd sum in
  let! _ := allowThis self sum in
  let! _ := allow self sum sender in
  ret st'.


End FHEAdd.

(** * Reasoning about PredictionMarket transactions *)

(** ** Unfolding a transaction *)

Ltac unfold_ops :=
  unfold exec, createMarket, placeBet, resolveMarket, claimWinnings,
    emergencyWithdraw, bind, ret, get, throw, require, from_option,
    write_market, write_count, write_bet, deposit, pay_out in *.

(** Case on the innermost undecided branch first, so that the rest of the
    transaction computes. *)
Ltac inner_case :=
  match goal with
  | H : context [match ?x with _ => _ end] |- _ =>
      lazymatch x with
      | context [match _ with _ => _ end] => fail
      | _ => destruct x eqn:?
      end
  end.

Ltac crunch := unfold_ops; repeat (cbn in *; simplify_eq; try inner_case); subst.

Lemma paid_out_app (m : nat) (l1 l2 : list ev) :
  paid_out m (l1 ++ l2) = paid_out m l1 + paid_out m l2.
Proof. induction l1 as [|[] l1 IH]; simpl; rewrite ?IH; lia. Qed.

Lemma deposited_app (m : nat) (l1 l2 : list ev) :
  deposited m (l1 ++ l2) = deposited m l1 + deposited m l2.
Proof. induction l1 as [|[] l1 IH]; simpl; rewrite ?IH; lia. Qed.

(** ** The invariant of reachable states *)

Definition fresh_ids (s : State) : Prop :=
  forall m, (marketCount s <= m)%nat -> markets s !! m = None.

Definition escrow_accounted (s : State) (tr : list ev) : Prop :=
  forall m, balance s m + paid_out m tr = deposited m tr /\ 0 <= balance s m
            /\ deposited m tr = pool s m.

Definition pools_nonneg (s : State) : Prop :=
  forall m mk, markets s !! m = Some mk ->
    0 <= totalYesAmount mk /\ 0 <= totalNoAmount mk.

Definition bets_wf (s : State) : Prop :=
  forall m p b, bets s !! (m, p) = Some b ->
    exists mk, markets s !! m = Some mk /\ MIN_BET <= amount b /\
      (claimed b = true -> resolved mk = true /\ prediction b = outcome mk).

Definition Inv (s : State) (tr : list ev) : Prop :=
  fresh_ids s /\ escrow_accounted s tr /\ pools_nonneg s /\ bets_wf s.

Lemma inv_step env c s tr r s' evs :
  Inv s tr -> exec env c s = (r, s', evs) -> Inv s' (tr ++ evs).
Proof.
  intros (Hf & He & Hp & Hb) H. destruct c; crunch.
  all: rewrite ?app_nil_r.
  all: try (unfold Inv; tauto).
  all: unfold Inv, fresh_ids, escrow_accounted, pools_nonneg, bets_wf, pool, balance in *; cbn in *.
    - (* createMarket *)
    split_and!.
    + intros m Hm. rewrite lookup_insert_ne by lia. apply Hf. lia.
    + intros m. destruct (He m) as (He1 & He2 & He3).
      rewrite paid_out_app, deposited_app; cbn. split_and!; [lia|lia|].
      rewrite lookup_insert. case_decide; subst; [|lia].
      rewrite Hf in He3 by lia. cbn. lia.
    + intros m mk Hm. apply lookup_insert_Some in Hm as [[_ <-]|[_ Hm]]; cbn; [lia|eauto].
    + intros m p b Hbet. destruct (Hb m p b Hbet) as (mk & Hmk & Hrest).
      exists mk. rewrite lookup_insert_ne; [done|].
      intros Heq. rewrite <- Heq, (Hf (marketCount s)) in Hmk; [done|lia].
  - (* placeBet *)
    apply andb_true_iff in Heqb1 as [Hlo Hhi]. apply Z.leb_le in Hlo, Hhi.
    apply negb_true_iff in Heqb0.
    assert (Hmin : 0 < MIN_BET) by (unfold MIN_BET; lia).
    destruct (He mid) as (_ & _ & Hpm). rewrite Heqo in Hpm.
    destruct (Hp mid m Heqo) as [Hy Hn].
    destruct pred; cbn; split_and!.
    all: try (intros m0 Hm0; rewrite lookup_insert_ne;
              [apply Hf; lia | intros <-; rewrite Hf in Heqo by lia; done]).
    all: try (intros m0; destruct (He m0) as (He1 & He2 & He3);
              rewrite paid_out_app, deposited_app; cbn;
              rewrite !lookup_insert; case_decide; subst; cbn;
              [rewrite Nat.eqb_refl; lia|];
              destruct (Nat.eqb_spec m0 mid); [congruence|];
              destruct (markets s !! m0); lia).
    all: try (intros m0 mk Hm0; apply lookup_insert_Some in Hm0 as [[_ <-]|[_ Hm0]];
              [cbn; lia | eauto]).
    all: intros m0 p b Hbet; apply lookup_insert_Some in Hbet as [[Hk <-]|[Hk Hbet]];
      [injection Hk as <- <-; rewrite lookup_insert_eq; eexists; split_and!;
         [done | cbn; lia | cbn; discriminate] |].
    all: destruct (Hb m0 p b Hbet) as (mk & Hmk & Hamt & Hcl);
      rewrite lookup_insert; case_decide; subst; [|eauto].
    all: rewrite Heqo in Hmk; injection Hmk as <-; eexists; split_and!; [done|done|]; cbn; done.
  - (* resolveMarket *)
    match goal with H : markets s !! mid = Some _ |- _ => rename H into Heqo end.
    match goal with H : negb (resolved _) = true |- _ => apply negb_true_iff in H end.
    split_and!.
    + intros m0 Hm0. rewrite lookup_insert_ne;
        [apply Hf; lia | intros <-; rewrite Hf in Heqo by lia; done].
    + intros m0; destruct (He m0) as (He1 & He2 & He3).
      rewrite paid_out_app, deposited_app; cbn.
      rewrite lookup_insert; case_decide; subst; cbn; [rewrite Heqo in He3|]; lia.
    + intros m0 mk Hm0; apply lookup_insert_Some in Hm0 as [[_ <-]|[_ Hm0]];
        [cbn; eapply Hp; eauto | eauto].
    + intros m0 p b Hbet. destruct (Hb m0 p b Hbet) as (mk & Hmk & Hamt & Hcl).
      rewrite lookup_insert; case_decide; subst; [|eauto].
      rewrite Heqo in Hmk; injection Hmk as <-. eexists; split_and!; [done|done|].
      intros Hc. destruct (Hcl Hc). congruence.
  - (* claimWinnings, payout transferred *)
    match goal with H : markets s !! mid = Some _ |- _ => rename H into Hmo end.
    match goal with H : bets s !! _ = Some _ |- _ => rename H into Hbo end.
    match goal with H : eqb _ _ = true |- _ => apply eqb_prop in H; rename H into Hpred end.
    match goal with H : transfer_ok _ && _ = true |- _ =>
      apply andb_true_iff in H as [_ Hle]; apply Z.leb_le in Hle end.
    split_and!; [done| | done |].
    + intros m0; destruct (He m0) as (He1 & He2 & He3).
      rewrite paid_out_app, deposited_app; cbn.
      rewrite !lookup_insert; case_decide; subst; cbn;
        [rewrite Nat.eqb_refl; lia|].
      destruct (Nat.eqb_spec m0 mid); [congruence|]. lia.
    + intros m0 p b' Hbet; apply lookup_insert_Some in Hbet as [[Hk <-]|[Hk Hbet]].
      * injection Hk as <- <-. destruct (Hb _ _ _ Hbo) as (mk & Hmk & Hamt & _).
        exists m. cbn. split_and!; [done|congruence|done].
      * eauto.
  - (* claimWinnings, payout transfer failed after the claimed flag *)
    match goal with H : markets s !! mid = Some _ |- _ => rename H into Hmo end.
    match goal with H : bets s !! _ = Some _ |- _ => rename H into Hbo end.
    match goal with H : eqb _ _ = true |- _ => apply eqb_prop in H; rename H into Hpred end.
    split_and!; [done| | done |].
    + intros m0; destruct (He m0) as (He1 & He2 & He3).
      rewrite paid_out_app, deposited_app; cbn. lia.
    + intros m0 p b' Hbet; apply lookup_insert_Some in Hbet as [[Hk <-]|[Hk Hbet]].
      * injection Hk as <- <-. destruct (Hb _ _ _ Hbo) as (mk & Hmk & Hamt & _).
        exists m. cbn. split_and!; [done|congruence|done].
      * eauto.
  - (* emergencyWithdraw *)
    split_and!; [done| | done | done].
    intros m0; destruct (He m0) as (He1 & He2 & He3).
    rewrite paid_out_app, deposited_app; cbn.
    rewrite !lookup_insert; case_decide; subst; cbn;
      [rewrite Nat.eqb_refl; lia|].
    destruct (Nat.eqb_spec m0 mid); [congruence|]. lia.
Qed.

Lemma inv_init : Inv init [].
Proof.
  split_and!; unfold fresh_ids, escrow_accounted, pools_nonneg, bets_wf,
    balance, pool; cbn.
  - intros m _. apply lookup_empty.
  - intros m. rewrite !lookup_empty. cbn. lia.
  - intros m mk Hm. rewrite lookup_empty in Hm. done.
  - intros m p b Hb. rewrite lookup_empty in Hb. done.
Qed.

Lemma run_cons (st : State * list ev) (ec : Env * call) (cs : list (Env * call)) :
  run st (ec :: cs) = run (step st ec) cs.
Proof. reflexivity. Qed.

Lemma run_app (st : State * list ev) (cs1 cs2 : list (Env * call)) :
  run st (cs1 ++ cs2) = run (run st cs1) cs2.
Proof. unfold run. apply fold_left_app. Qed.

Lemma step_inv (s : State) (tr : list ev) (ec : Env * call) :
  Inv s tr -> Inv (step (s, tr) ec).1 (step (s, tr) ec).2.
Proof.
  intros HI. unfold step. cbn.
  destruct (exec ec.1 ec.2 s) as [[r s'] evs] eqn:Hx. cbn.
  eapply inv_step; eauto.
Qed.

Lemma run_inv (cs : list (Env * call)) (s : State) (tr : list ev) :
  Inv s tr -> Inv (run (s, tr) cs).1 (run (s, tr) cs).2.
Proof.
  revert s tr. induction cs as [|ec cs IH]; intros s tr HI; [done|].
  rewrite run_cons. destruct (step (s, tr) ec) as [s' tr'] eqn:Hs.
  apply IH. pose proof (step_inv s tr ec HI) as H. rewrite Hs in H. done.
Qed.

Lemma reach_inv (s : State) (tr : list ev) : reach s tr -> Inv s tr.
Proof.
  intros [cs Hr]. pose proof (run_inv cs init [] inv_init) as H.
  rewrite Hr in H. done.
Qed.

(** A property of states that every transaction preserves (from a state
    satisfying the invariant) holds along every run. *)
Lemma run_preserves (P : State -> Prop) :
  (forall env c s tr r s' evs,
      Inv s tr -> P s -> exec env c s = (r, s', evs) -> P s') ->
  forall cs s tr, Inv s tr -> P s -> P (run (s, tr) cs).1.
Proof.
  intros Hstep cs. induction cs as [|[env c] cs IH]; intros s tr HI HP; [done|].
  rewrite run_cons. unfold step at 1. cbn.
  destruct (exec env c s) as [[r s'] evs] eqn:Hx.
  apply (IH s' (tr ++ evs)); [eapply inv_step; eauto | eauto].
Qed.

(** ** What a transaction leaves alone *)

Lemma frame_resolved env c s tr r s' evs m mk :
  Inv s tr -> exec env c s = (r, s', evs) ->
  markets s !! m = Some mk -> resolved mk = true -> markets s' !! m = Some mk.
Proof.
  intros (Hf & _) H Hm Hr. destruct c; crunch; cbn; try done.
  all: rewrite lookup_insert; case_decide; subst; [|done].
  all: try (unfold fresh_ids in Hf; rewrite Hf in Hm by lia; done).
  all: rewrite Hm in *; simplify_eq;
    match goal with H : negb (resolved _) = true |- _ =>
      apply negb_true_iff in H end; congruence.
Qed.

Lemma frame_claimed env c s r s' evs k b :
  exec env c s = (r, s', evs) ->
  bets s !! k = Some b -> claimed b = true -> bets s' !! k = Some b.
Proof.
  intros H Hk Hc. destruct c; crunch; cbn; try done.
  all: rewrite lookup_insert; case_decide; subst; [|done].
  - match goal with H : negb (bool_decide _) = true |- _ =>
      apply negb_true_iff, bool_decide_eq_false in H; destruct H; eauto end.
  - rewrite Hk in *; simplify_eq. rewrite Hc in *. done.
  - rewrite Hk in *; simplify_eq. rewrite Hc in *. done.
Qed.

Lemma frame_bet env c s r s' evs k :
  exec env c s = (r, s', evs) ->
  is_Some (bets s !! k) -> is_Some (bets s' !! k).
Proof.
  intros H Hk. destruct c; crunch; cbn; try done.
  all: apply lookup_insert_is_Some'; auto.
Qed.

Lemma run_resolved (cs : list (Env * call)) s tr m mk :
  Inv s tr -> markets s !! m = Some mk -> resolved mk = true ->
  markets (run (s, tr) cs).1 !! m = Some mk.
Proof.
  intros HI Hm Hr.
  apply (run_preserves (fun s => markets s !! m = Some mk)); auto.
  intros. eapply frame_resolved; eauto.
Qed.

Lemma run_claimed (cs : list (Env * call)) s tr k b :
  Inv s tr -> bets s !! k = Some b -> claimed b = true ->
  bets (run (s, tr) cs).1 !! k = Some b.
Proof.
  intros HI Hk Hc.
  apply (run_preserves (fun s => bets s !! k = Some b)); auto.
  intros. eapply frame_claimed; eauto.
Qed.

Lemma run_bet (cs : list (Env * call)) s tr k :
  Inv s tr -> is_Some (bets s !! k) -> is_Some (bets (run (s, tr) cs).1 !! k).
Proof.
  intros HI Hk.
  apply (run_preserves (fun s => is_Some (bets s !! k))); auto.
  intros. eapply frame_bet; eauto.
Qed.

(** ** Successful transactions *)

Lemma placeBet_ok_shape env m pred s s1 evs :
  exec env (PlaceBet m pred) s = (inr tt, s1, evs) ->
  exists mk, markets s !! m = Some mk /\ now env < endTime mk /\
    resolved mk = false /\ MIN_BET <= msg_value env <= MAX_BET /\
    bets s !! (m, caller env) = None /\ transfer_ok env = true /\
    bets s1 = <[(m, caller env) := mkBet (msg_value env) pred false]> (bets s) /\
    markets s1 = <[m := mkMarket (id mk) (question mk) (creator mk)
                         (createdAt mk) (endTime mk) (resolved mk) (outcome mk)
                         (resolvedAt mk)
                         (totalYesAmount mk + if pred then msg_value env else 0)
                         (totalNoAmount mk + if pred then 0 else msg_value env)]>
                   (markets s).
Proof.
  intros H. crunch.
  repeat match goal with
  | H : (_ && _) = true |- _ => apply andb_true_iff in H as [? ?]
  | H : negb (bool_decide _) = true |- _ =>
      apply negb_true_iff, bool_decide_eq_false in H
  | H : negb _ = true |- _ => apply negb_true_iff in H
  | H : (_ <=? _) = true |- _ => apply Z.leb_le in H
  | H : (_ <? _) = true |- _ => apply Z.ltb_lt in H
  end.
  eexists; split_and!; eauto; cbn.
  - apply eq_None_not_Some. done.
  - destruct pred; rewrite ?Z.add_0_r; done.
Qed.

Lemma resolveMarket_ok_shape env m o s s1 evs :
  exec env (ResolveMarket m o) s = (inr tt, s1, evs) ->
  exists mk, markets s !! m = Some mk /\ caller env = creator mk /\
    endTime mk <= now env /\ resolved mk = false /\
    s1 = mkState (<[m := mkMarket (id mk) (question mk) (creator mk)
                           (createdAt mk) (endTime mk) true o (now env)
                           (totalYesAmount mk) (totalNoAmount mk)]> (markets s))
                 (marketCount s) (bets s) (escrow s).
Proof.
  intros H. crunch.
  repeat match goal with
  | H : negb _ = true |- _ => apply negb_true_iff in H
  | H : (_ <=? _) = true |- _ => apply Z.leb_le in H
  | H : Nat.eqb _ _ = true |- _ => apply Nat.eqb_eq in H
  end.
  eexists; split_and!; eauto.
Qed.

Lemma claimWinnings_ok_shape env m s s1 evs :
  exec env (ClaimWinnings m) s = (inr tt, s1, evs) ->
  exists b mk, bets s !! (m, caller env) = Some b /\ markets s !! m = Some mk /\
    resolved mk = true /\ claimed b = false /\ prediction b = outcome mk /\
    winningSideTotal mk <> 0 /\ transfer_ok env = true /\
    payoutOf mk b <= balance s m /\
    evs = [EvWriteBet m (caller env) (mkBet (amount b) (prediction b) true);
           EvPayout m (caller env) (payoutOf mk b)] /\
    s1 = mkState (markets s) (marketCount s)
           (<[(m, caller env) := mkBet (amount b) (prediction b) true]> (bets s))
           (<[m := balance s m - payoutOf mk b]> (escrow s)).
Proof.
  intros H. crunch.
  repeat match goal with
  | H : (_ && _) = true |- _ => apply andb_true_iff in H as [? ?]
  | H : negb (_ =? _) = true |- _ => apply negb_true_iff, Z.eqb_neq in H
  | H : negb _ = true |- _ => apply negb_true_iff in H
  | H : (_ <=? _) = true |- _ => apply Z.leb_le in H
  | H : eqb _ _ = true |- _ => apply eqb_prop in H
  end.
  do 2 eexists; split_and!; eauto.
Qed.

(** ** Market identifiers, and no payout before resolution *)

Lemma run_preserves_tr (P : State -> list ev -> Prop) :
  (forall env c s tr r s' evs,
      Inv s tr -> P s tr -> exec env c s = (r, s', evs) -> P s' (tr ++ evs)) ->
  forall cs s tr, Inv s tr -> P s tr ->
    P (run (s, tr) cs).1 (run (s, tr) cs).2.
Proof.
  intros Hstep cs. induction cs as [|[env c] cs IH]; intros s tr HI HP; [done|].
  rewrite run_cons.
  destruct (exec env c s) as [[r s'] evs] eqn:Hx.
  replace (step (s, tr) (env, c)) with (s', tr ++ evs)
    by (unfold step; cbn; rewrite Hx; done).
  apply IH; [eapply inv_step; eauto | eauto].
Qed.

Definition ids_dense (s : State) : Prop :=
  forall m, (is_Some (markets s !! m) <-> (m < marketCount s)%nat) /\
            forall mk, markets s !! m = Some mk -> id mk = m.

Lemma ids_dense_step env c s tr r s' evs :
  Inv s tr -> ids_dense s -> exec env c s = (r, s', evs) -> ids_dense s'.
Proof.
  intros (Hf & _) Hd H. destruct c; crunch; cbn; try done.
  all: unfold ids_dense in *; cbn; intros m0; destruct (Hd m0) as [Hd1 Hd2].
  - rewrite lookup_insert. case_decide; subst.
    + split; [split; [lia | eauto] | intros mk Hmk; injection Hmk as <-; done].
    + split; [rewrite Hd1; lia | done].
  - match goal with H : markets s !! mid = Some ?mk0 |- _ =>
      destruct (Hd mid) as [_ Hid]; specialize (Hid mk0 H) end.
    rewrite lookup_insert. case_decide; subst; [|done].
    split; [split; [intros _; apply Hd1; eauto | eauto]|].
    intros mk Hmk. injection Hmk as <-. destruct pred; done.
  - match goal with H : markets s !! mid = Some ?mk0 |- _ =>
      destruct (Hd mid) as [_ Hid]; specialize (Hid mk0 H) end.
    rewrite lookup_insert. case_decide; subst; [|done].
    split; [split; [intros _; apply Hd1; eauto | eauto]|].
    intros mk Hmk. injection Hmk as <-. done.
Qed.

Lemma reach_ids_dense s tr : reach s tr -> ids_dense s.
Proof.
  intros [cs Hr].
  pose proof (run_preserves ids_dense ids_dense_step cs init [] inv_init) as H.
  rewrite Hr in H. apply H.
  intros m. cbn. rewrite lookup_empty. split; [split; [intros []; done | lia] | done].
Qed.

Definition unpaid_while_open (s : State) (tr : list ev) : Prop :=
  forall m, match markets s !! m with Some mk => resolved mk | None => false end = false ->
    forall p a, EvPayout m p a ∉ tr.

Lemma payout_ev_resolved env c s r s' evs m p a :
  exec env c s = (r, s', evs) -> EvPayout m p a ∈ evs ->
  exists mk, markets s !! m = Some mk /\ resolved mk = true.
Proof.
  intros H Hin. destruct c; crunch.
  all: repeat (apply elem_of_cons in Hin as [Hin|Hin]; try discriminate);
       try (apply elem_of_nil in Hin; done).
  all: simplify_eq; eauto.
Qed.

Lemma unpaid_step env c s tr r s' evs :
  Inv s tr -> unpaid_while_open s tr -> exec env c s = (r, s', evs) ->
  unpaid_while_open s' (tr ++ evs).
Proof.
  intros HI Hu H m0 Hopen p a Hin.
  apply elem_of_app in Hin as [Hin|Hin].
  - destruct (markets s !! m0) as [mk|] eqn:Hm.
    + destruct (resolved mk) eqn:Hr.
      * rewrite (frame_resolved env c s tr r s' evs m0 mk HI H Hm Hr), Hr in Hopen.
        done.
      * eapply Hu; [rewrite Hm; done | exact Hin].
    + eapply Hu; [rewrite Hm; done | exact Hin].
  - destruct (payout_ev_resolved env c s r s' evs m0 p a H Hin) as (mk & Hm & Hr).
    rewrite (frame_resolved env c s tr r s' evs m0 mk HI H Hm Hr), Hr in Hopen.
    done.
Qed.

Lemma reach_unpaid s tr : reach s tr -> unpaid_while_open s tr.
Proof.
  intros [cs Hr].
  pose proof (run_preserves_tr unpaid_while_open unpaid_step cs init [] inv_init) as H.
  rewrite Hr in H. apply H. intros m _ p a Hin. apply elem_of_nil in Hin. done.
Qed.

Lemma paid_out_none (m : nat) (tr : list ev) :
  (forall p a, EvPayout m p a ∉ tr) -> paid_out m tr = 0.
Proof.
  induction tr as [|ev0 tr IH]; intros Hu; [done|].
  assert (IH' : paid_out m tr = 0)
    by (apply IH; intros p a Hin; apply (Hu p a); apply elem_of_cons; right; done).
  destruct ev0; cbn; try done.
  destruct (Nat.eqb_spec m m0) as [<-|]; [|lia].
  exfalso. apply (Hu to amt). apply elem_of_cons. left. done.
Qed.

(** * Reasoning about the FHEVM examples *)

(** ** The FHEVM host: invariants and allowances *)

Module FHEVMFacts.

Import FHEVM.

(** Handle 0 is never used and every handle from [next_handle] on is free. *)
Definition HInv (h : Host) : Prop :=
  (1 <= next_handle h)%N /\ cts h !! 0%N = None /\
  forall k, (next_handle h <= k)%N -> cts h !! k = None.

Lemma host0_inv : HInv host0.
Proof. split_and!; cbn; [lia | done | intros; apply lookup_empty]. Qed.

Lemma has_head a l : has a (a :: l) = true.
Proof. unfold has. cbn. rewrite Nat.eqb_refl. done. Qed.

Lemma has_cons a b l : has a l = true -> has a (b :: l) = true.
Proof. unfold has. cbn. intros ->. apply orb_true_r. Qed.

Lemma isAllowed_persist h k a ct :
  cts h !! k = Some ct -> has a (acl ct) = true -> isAllowed h k a = true.
Proof. unfold isAllowed. intros -> ->. apply orb_true_r. Qed.

Lemma has_pair a b c : has c [a; b] = Nat.eqb c a || Nat.eqb c b.
Proof. unfold has. cbn. rewrite orb_false_r. done. Qed.

Lemma isAllowed_mem h k a : In (k, a) (transient h) -> isAllowed h k a = true.
Proof.
  unfold isAllowed. intros Hin.
  assert (existsb (fun p => N.eqb p.1 k && Nat.eqb p.2 a) (transient h) = true) as ->;
    [|done].
  apply existsb_exists. exists (k, a). split; [done|]. cbn.
  rewrite N.eqb_refl, Nat.eqb_refl. done.
Qed.

Ltac fhe_step :=
  erewrite isAllowed_mem by (cbn; tauto).

Lemma userDecrypt_pair (h : Host) (c : handle) (val : Z) (u self w : addr) :
  cts h !! c = Some (mkCt val [u; self]) ->
  userDecrypt h self c w =
    if Nat.eqb w u || Nat.eqb w self then Some val else None.
Proof.
  intros Hc. unfold userDecrypt. rewrite Hc. cbn [acl plaintext].
  rewrite (has_cons self u [self] (has_head self [])), andb_true_r, has_pair.
  done.
Qed.

Lemma plain_of (h : Host) (k : handle) (ct : Ciphertext) :
  cts h !! k = Some ct -> plain h k = plaintext ct.
Proof. unfold plain. intros ->. done. Qed.

End FHEVMFacts.

(** ** [FHECounter]: one transaction *)

Module CounterFacts.

Import FHEVM FHEVMFacts FHECounter.

Lemma counter_binop_spec (f : Z -> Z -> Z) (self u : addr) (v : Z)
    (st : FHECounter) (h : Host) :
  HInv h ->
  (_count st = 0%N \/ ((_count st < next_handle h)%N /\
     exists ct, cts h !! _count st = Some ct /\ has self (acl ct) = true)) ->
  exists c h',
    (let! encryptedAmount := fromExternal self v in
     let! c := binop f self (_count st) encryptedAmount in
     let! _ := allowThis self c in
     let! _ := allow self c u in
     ret (mkCounter c)) h = inr (mkCounter c, h') /\
    cts h' !! c = Some (mkCt (wrap32 (f (plain h (_count st)) (wrap32 v))) [u; self]) /\
    (next_handle h <= c)%N /\ (c < next_handle h')%N /\ HInv h' /\
    forall k, (k < next_handle h)%N -> cts h' !! k = cts h !! k.
Proof.
  intros (Hn1 & H0 & Hfr) Hc.
  destruct st as [c0]; cbn in *.
  set (n := next_handle h).
  destruct Hc as [-> | (Hlt & ct0 & Hct0 & Hself)].
  all: assert (Hn0 : (n =? 0)%N = false) by (apply N.eqb_neq; lia).
  all: unfold fromExternal, binop, isInitialized, asEuint32, allowThis, allow,
      fresh, require_allowed, bind, ret.
  all: repeat (cbn -[isAllowed plain]; rewrite ?Hn0; try fhe_step).
  2: assert (Hc00 : (c0 =? 0)%N = false)
       by (apply N.eqb_neq; intros ->; congruence).
  2: rewrite Hc00; cbn -[isAllowed plain].
  2: erewrite (isAllowed_persist _ c0 self ct0);
       [| cbn; rewrite lookup_insert_ne by lia; exact Hct0 | exact Hself].
  2: repeat (cbn -[isAllowed plain]; try fhe_step).
  all: eexists _, _; split; [reflexivity|].
  all: rewrite !alter_insert_eq; unfold plain; cbn [cts next_handle].
  all: rewrite ?lookup_insert_eq, ?lookup_insert_ne by lia; cbn.
  all: split_and!; try lia; try reflexivity.
  - rewrite lookup_insert_eq, H0. done.
  - unfold HInv; cbn. split_and!; [lia | |].
    + rewrite !lookup_insert_ne by lia. done.
    + intros k Hk. rewrite !lookup_insert_ne by lia. apply Hfr. lia.
  - intros k Hk. rewrite !lookup_insert_ne by lia. done.
  - unfold HInv; cbn. split_and!; [lia | |].
    + rewrite !lookup_insert_ne by lia. done.
    + intros k Hk. rewrite !lookup_insert_ne by lia. apply Hfr. lia.
  - intros k Hk. rewrite !lookup_insert_ne by lia. done.
Qed.

Ltac fhe_run :=
  unfold increment, decrement, reset, exec_op, tx, fromExternal, add, sub, binop,
    isInitialized, asEuint32, allowThis, allow, fresh, require_allowed, bind, ret;
  repeat (cbn -[isAllowed plain]; try fhe_step).

Lemma counter_reset_spec (self u : addr) (st : FHECounter) (h : Host) :
  HInv h ->
  (reset self u st) h =
    inr (mkCounter (next_handle h),
         mkHost (<[next_handle h := mkCt 0 [u; self]]> (cts h))
                (next_handle h + 1) ((next_handle h, self) :: transient h)).
Proof.
  intros _. fhe_run. rewrite !alter_insert_eq. done.
Qed.

(** Between transactions: no transient allowance is left, and the count is
    either uninitialised or a live ciphertext the contract may use. *)
Definition CInv (self : addr) (st : FHECounter) (h : Host) : Prop :=
  HInv h /\ transient h = [] /\
  (_count st = 0%N \/ ((_count st < next_handle h)%N /\
     exists ct, cts h !! _count st = Some ct /\ has self (acl ct) = true)).

Lemma counter_op_spec (self : addr) (o : op) (st : FHECounter) (h : Host) :
  CInv self st h ->
  exists st' h', tx (exec_op self o) st h = inr (st', h') /\ CInv self st' h' /\
    cts h' !! _count st' = Some (mkCt (apply_op (plain h (_count st)) o)
                                      [sender_of o; self]) /\
    forall k, (k < next_handle h)%N -> cts h' !! k = cts h !! k.
Proof.
  intros (HH & Ht & Hc).
  destruct o as [u v|u v|u]; cbn [exec_op sender_of apply_op]; unfold tx.
  - destruct (counter_binop_spec Z.add self u v st h HH Hc)
      as (c & h' & Hx & Hct & Hlo & Hhi & HH' & Hfr).
    unfold increment, add. rewrite Hx.
    exists (mkCounter c), (end_tx h'). split_and!; try done.
    unfold CInv; cbn. split_and!; [done|done|].
    right. split; [done|]. eexists; split; [exact Hct|]. apply has_cons, has_head.
  - destruct (counter_binop_spec Z.sub self u v st h HH Hc)
      as (c & h' & Hx & Hct & Hlo & Hhi & HH' & Hfr).
    unfold decrement, sub. rewrite Hx.
    exists (mkCounter c), (end_tx h'). split_and!; try done.
    unfold CInv; cbn. split_and!; [done|done|].
    right. split; [done|]. eexists; split; [exact Hct|]. apply has_cons, has_head.
  - rewrite counter_reset_spec by done.
    destruct HH as (Hn1 & H0 & Hfr).
    eexists _, _. split; [reflexivity|]. cbn.
    unfold CInv; cbn. split_and!.
    + unfold HInv; cbn. split_and!; [lia | |].
      * rewrite lookup_insert_ne by lia. done.
      * intros k Hk. rewrite lookup_insert_ne by lia. apply Hfr. lia.
    + done.
    + right. split; [lia|]. rewrite lookup_insert_eq. eexists; split; [done|].
      apply has_cons, has_head.
    + apply lookup_insert_eq.
    + intros k Hk. rewrite lookup_insert_ne by lia. done.
Qed.

Lemma counter_deploy_inv (self : addr) : CInv self deploy host0.
Proof. split_and!; [apply host0_inv | done | left; done]. Qed.

Lemma counter_fold (self : addr) (ops : list op) (st : FHECounter) (h : Host) :
  CInv self st h ->
  CInv self (fold_left (step self) ops (st, h)).1 (fold_left (step self) ops (st, h)).2 /\
  plain (fold_left (step self) ops (st, h)).2 (_count (fold_left (step self) ops (st, h)).1)
    = fold_left apply_op ops (plain h (_count st)) /\
  (ops <> [] -> exists o, last ops = Some o /\
     cts (fold_left (step self) ops (st, h)).2 !! _count (fold_left (step self) ops (st, h)).1
     = Some (mkCt (fold_left apply_op ops (plain h (_count st))) [sender_of o; self])).
Proof.
  revert st h. induction ops as [|o ops IH]; intros st h HI; [split_and!; done|].
  destruct (counter_op_spec self o st h HI) as (st' & h' & Hx & HI' & Hct & _).
  cbn [fold_left]. replace (step self (st, h) o) with (st', h')
    by (unfold step; cbn; rewrite Hx; done).
  destruct (IH st' h' HI') as (HI2 & Hp2 & Hl2).
  rewrite (plain_of h' _ _ Hct) in Hp2, Hl2. cbn [plaintext] in Hp2, Hl2.
  split_and!; [done | done |].
  intros _. destruct ops as [|o' ops'].
  - exists o. cbn. split; [done|]. rewrite Hct. done.
  - destruct (Hl2 ltac:(discriminate)) as (o2 & Hlast & Hct2).
    exists o2. split; [|done]. rewrite <- Hlast. done.
Qed.



End CounterFacts.

(** ** [AccessControlExample]: one transaction *)

Module ACEFacts.

Import FHEVM FHEVMFacts AccessControlExample.









End ACEFacts.

(** * The claims *)

Example scenario_alice_claims :
  getBet st_settled.1 0 alice = (true, true) /\
  paid_out 0 st_settled.2 = ether * 6 / 10 /\ pool st_settled.1 0 = ether * 6 / 10.
Proof. vm_compute. auto. Qed.

(** C1: for every market, the value paid out of its escrow, by
    [claimWinnings] and by [emergencyWithdraw] together, never exceeds the
    value of the bets placed on it, which is the sum of its two pools. *)
Theorem conservation (s : State) (tr : list ev) (m : nat) :
  reach s tr -> paid_out m tr <= deposited m tr /\ deposited m tr = pool s m.
Proof.
  intros Hr. destruct (reach_inv s tr Hr) as (_ & He & _).
  destruct (He m) as (H1 & H2 & H3). split; lia.
Qed.

Lemma conservation_witness :
  reach st_settled.1 st_settled.2 /\
  paid_out 0 st_settled.2 <= deposited 0 st_settled.2 /\
  deposited 0 st_settled.2 = pool st_settled.1 0.
Proof.
  assert (Hr : reach st_settled.1 st_settled.2)
    by (exists scenario_settled; apply surjective_pairing).
  split; [exact Hr | exact (conservation _ _ 0 Hr)].
Defined.

(** C2: a successful [claimWinnings] first writes the bet back with
    [claimed = true] and only then transfers the payout (nothing follows the
    transfer), and every later [claimWinnings] by the same participant on
    the same market, after any further transactions, fails with
    [AlreadyClaimed] and changes nothing. *)
Theorem claim_at_most_once (s : State) (tr : list ev) (env : Env) (m : nat)
    (s1 : State) (evs : list ev) :
  reach s tr -> exec env (ClaimWinnings m) s = (inr tt, s1, evs) ->
  (exists b mk, bets s !! (m, caller env) = Some b /\ markets s !! m = Some mk /\
     evs = [EvWriteBet m (caller env) (mkBet (amount b) (prediction b) true);
            EvPayout m (caller env) (payoutOf mk b)]) /\
  forall (cs : list (Env * call)) (env' : Env), caller env' = caller env ->
    exec env' (ClaimWinnings m) (run (s1, tr ++ evs) cs).1
    = (inl AlreadyClaimed, (run (s1, tr ++ evs) cs).1, []).
Proof.
  intros Hr H.
  pose proof (inv_step env (ClaimWinnings m) s tr _ s1 evs (reach_inv s tr Hr) H) as HI.
  apply claimWinnings_ok_shape in H
    as (b & mk & Hb & Hm & Hres & _ & _ & _ & _ & _ & Hevs & ->).
  split; [eauto|]. intros cs env' Hc.
  set (b' := mkBet (amount b) (prediction b) true).
  assert (Hb2 : bets (run (mkState (markets s) (marketCount s)
        (<[(m, caller env) := b']> (bets s))
        (<[m := balance s m - payoutOf mk b]> (escrow s)), tr ++ evs) cs).1
        !! (m, caller env') = Some b').
  { rewrite Hc. apply run_claimed; [done| |done]. cbn. apply lookup_insert_eq. }
  assert (Hm2 : markets (run (mkState (markets s) (marketCount s)
        (<[(m, caller env) := b']> (bets s))
        (<[m := balance s m - payoutOf mk b]> (escrow s)), tr ++ evs) cs).1
        !! m = Some mk) by (apply run_resolved; done).
  unfold_ops. cbn. rewrite Hb2, Hm2. cbn. rewrite Hres. reflexivity.
Qed.

Lemma claim_at_most_once_witness :
  let w := exec (e 604801 alice 0) (ClaimWinnings 0) st_resolved.1 in
  reach st_resolved.1 st_resolved.2 /\
  exec (e 604801 alice 0) (ClaimWinnings 0) st_resolved.1 = (inr tt, w.1.2, w.2) /\
  ((exists b mk, bets st_resolved.1 !! (0%nat, alice) = Some b /\
      markets st_resolved.1 !! 0%nat = Some mk /\
      w.2 = [EvWriteBet 0 alice (mkBet (amount b) (prediction b) true);
             EvPayout 0 alice (payoutOf mk b)]) /\
   forall (cs : list (Env * call)) (env' : Env), caller env' = alice ->
     exec env' (ClaimWinnings 0) (run (w.1.2, st_resolved.2 ++ w.2) cs).1
     = (inl AlreadyClaimed, (run (w.1.2, st_resolved.2 ++ w.2) cs).1, [])).
Proof.
  intros w.
  assert (Hr : reach st_resolved.1 st_resolved.2)
    by (exists scenario_resolved; apply surjective_pairing).
  assert (Hx : exec (e 604801 alice 0) (ClaimWinnings 0) st_resolved.1
               = (inr tt, w.1.2, w.2)) by (vm_compute; reflexivity).
  split; [exact Hr|]. split; [exact Hx|].
  exact (claim_at_most_once _ _ _ _ _ _ Hr Hx).
Defined.

(** C3 (counterexample): a second [placeBet] by the same participant on
    the same market with an amount below [MIN_BET] fails with
    [InvalidArgument], not [AlreadyExists]: the amount is checked before
    the existing bet. *)
Lemma second_bet_bad_amount_not_already_exists :
  (exec (e 10 alice (ether / 10)) (PlaceBet 0 true) (run (init, []) [(e 0 creatorA 0, CreateMarket "Winnings test" 604800)]).1).1.1 = inr tt /\
  (exec (e 20 alice 0) (PlaceBet 0 false) (run (init, []) [(e 0 creatorA 0, CreateMarket "Winnings test" 604800); (e 10 alice (ether / 10), PlaceBet 0 true)]).1).1.1
  = inl InvalidArgument.
Proof. vm_compute. split; reflexivity. Qed.

(** C3 (amended): after a successful [placeBet] by a participant on a
    market, every later [placeBet] by that participant on that market, after
    any further transactions and whatever its prediction, fails and changes
    nothing: with [AlreadyExists] when the market is still open and the
    amount lies in [[MIN_BET, MAX_BET]], with [InvalidState] when the market
    has ended or is resolved, and with [InvalidArgument] when it is open but
    the amount is out of bounds. *)
Theorem bet_at_most_once (s : State) (tr : list ev) (env : Env) (m : nat)
    (pred : bool) (s1 : State) (evs : list ev) :
  reach s tr -> exec env (PlaceBet m pred) s = (inr tt, s1, evs) ->
  forall (cs : list (Env * call)) (env' : Env) (pred' : bool),
    caller env' = caller env ->
    let s2 := (run (s1, tr ++ evs) cs).1 in
    exists mk, markets s2 !! m = Some mk /\
      exec env' (PlaceBet m pred') s2 =
        (inl (if (now env' <? endTime mk) && negb (resolved mk)
              then if (MIN_BET <=? msg_value env') && (msg_value env' <=? MAX_BET)
                   then AlreadyExists else InvalidArgument
              else InvalidState), s2, []).
Proof.
  intros Hr H cs env' pred' Hc s2.
  pose proof (inv_step env _ s tr _ s1 evs (reach_inv s tr Hr) H) as HI.
  pose proof (run_inv cs s1 (tr ++ evs) HI) as (_ & _ & _ & Hwf).
  apply placeBet_ok_shape in H as (mk0 & _ & _ & _ & _ & _ & _ & Hbets & _).
  assert (Hb : is_Some (bets s2 !! (m, caller env'))).
  { unfold s2. rewrite Hc. apply run_bet; [done|]. rewrite Hbets.
    rewrite lookup_insert_eq. eauto. }
  destruct Hb as [b Hb].
  destruct (Hwf m (caller env') b Hb) as (mk & Hmk & _).
  change (markets s2 !! m = Some mk) in Hmk. clearbody s2.
  exists mk. split; [done|].
  unfold_ops. cbn. rewrite Hmk. cbn.
  destruct (now env' <? endTime mk); cbn; [|done].
  destruct (resolved mk); cbn; [done|].
  destruct ((MIN_BET <=? msg_value env') && (msg_value env' <=? MAX_BET)); cbn; [|done].
  rewrite Hb. done.
Qed.

Lemma bet_at_most_once_witness :
  let w := exec (e 12 carol (2 * ether / 10)) (PlaceBet 0 true)
                (run (init, []) (take 3 scenario_open)).1 in
  reach (run (init, []) (take 3 scenario_open)).1 (run (init, []) (take 3 scenario_open)).2 /\
  exec (e 12 carol (2 * ether / 10)) (PlaceBet 0 true)
       (run (init, []) (take 3 scenario_open)).1 = (inr tt, w.1.2, w.2) /\
  forall (cs : list (Env * call)) (env' : Env) (pred' : bool),
    caller env' = carol ->
    let s2 := (run (w.1.2, (run (init, []) (take 3 scenario_open)).2 ++ w.2) cs).1 in
    exists mk, markets s2 !! 0%nat = Some mk /\
      exec env' (PlaceBet 0 pred') s2 =
        (inl (if (now env' <? endTime mk) && negb (resolved mk)
              then if (MIN_BET <=? msg_value env') && (msg_value env' <=? MAX_BET)
                   then AlreadyExists else InvalidArgument
              else InvalidState), s2, []).
Proof.
  intros w.
  assert (Hr : reach (run (init, []) (take 3 scenario_open)).1
                     (run (init, []) (take 3 scenario_open)).2)
    by (exists (take 3 scenario_open); apply surjective_pairing).
  assert (Hx : exec (e 12 carol (2 * ether / 10)) (PlaceBet 0 true)
                 (run (init, []) (take 3 scenario_open)).1 = (inr tt, w.1.2, w.2))
    by (vm_compute; reflexivity).
  split; [exact Hr|]. split; [exact Hx|].
  exact (bet_at_most_once _ _ _ _ _ _ _ Hr Hx).
Defined.

(** C4 (counterexample): once market 0 is resolved, a [resolveMarket] by a
    caller other than its creator fails with [Unauthorized], not
    [InvalidState]: the caller is checked before the state. *)
Lemma resolve_again_by_other_unauthorized :
  (exec (e 604900 alice 0) (ResolveMarket 0 false) st_resolved.1).1.1
  = inl Unauthorized.
Proof. vm_compute. reflexivity. Qed.

(** C4 (amended): the first successful [resolveMarket] on a market (by its
    creator, on an unresolved market) sets [resolved = true] and [outcome];
    from then on, after any further transactions, the market record never
    changes, and every later [resolveMarket] on it fails and changes
    nothing: with [InvalidState] when called by the creator, with
    [Unauthorized] when called by anyone else. *)
Theorem resolve_once (s : State) (tr : list ev) (env : Env) (m : nat) (o : bool)
    (s1 : State) (evs : list ev) :
  reach s tr -> exec env (ResolveMarket m o) s = (inr tt, s1, evs) ->
  (exists mk0, markets s !! m = Some mk0 /\ resolved mk0 = false) /\
  exists mk, markets s1 !! m = Some mk /\ resolved mk = true /\ outcome mk = o /\
    creator mk = caller env /\
    forall (cs : list (Env * call)) (env' : Env) (o' : bool),
      let s2 := (run (s1, tr ++ evs) cs).1 in
      markets s2 !! m = Some mk /\
      exec env' (ResolveMarket m o') s2 =
        (inl (if Nat.eqb (caller env') (creator mk) then InvalidState
              else Unauthorized), s2, []).
Proof.
  intros Hr H.
  pose proof (inv_step env _ s tr _ s1 evs (reach_inv s tr Hr) H) as HI.
  apply resolveMarket_ok_shape in H as (mk0 & Hm0 & Hcr & _ & Hres0 & ->).
  split; [eauto|].
  eexists; split_and!; [cbn; apply lookup_insert_eq | done | done | done |].
  intros cs env' o' s2.
  match goal with |- markets _ !! _ = Some ?mk /\ _ =>
    assert (Hm2 : markets s2 !! m = Some mk)
      by (apply run_resolved; [done | cbn; apply lookup_insert_eq | done]) end.
  split; [done|]. clearbody s2.
  unfold_ops. cbn. rewrite Hm2. cbn.
  destruct (Nat.eqb (caller env') (creator mk0)); cbn; [|done].
  destruct (endTime mk0 <=? now env'); done.
Qed.

Lemma resolve_once_witness :
  let w := exec (e 604800 creatorA 0) (ResolveMarket 0 true) st_open.1 in
  reach st_open.1 st_open.2 /\
  exec (e 604800 creatorA 0) (ResolveMarket 0 true) st_open.1 = (inr tt, w.1.2, w.2) /\
  ((exists mk0, markets st_open.1 !! 0%nat = Some mk0 /\ resolved mk0 = false) /\
   exists mk, markets w.1.2 !! 0%nat = Some mk /\ resolved mk = true /\
     outcome mk = true /\ creator mk = creatorA /\
     forall (cs : list (Env * call)) (env' : Env) (o' : bool),
       let s2 := (run (w.1.2, st_open.2 ++ w.2) cs).1 in
       markets s2 !! 0%nat = Some mk /\
       exec env' (ResolveMarket 0 o') s2 =
         (inl (if Nat.eqb (caller env') (creator mk) then InvalidState
               else Unauthorized), s2, [])).
Proof.
  intros w.
  assert (Hr : reach st_open.1 st_open.2)
    by (exists scenario_open; apply surjective_pairing).
  assert (Hx : exec (e 604800 creatorA 0) (ResolveMarket 0 true) st_open.1
               = (inr tt, w.1.2, w.2)) by (vm_compute; reflexivity).
  split; [exact Hr|]. split; [exact Hx|].
  exact (resolve_once _ _ _ _ _ _ _ Hr Hx).
Defined.

(** C5: when a claim succeeds, the payout transferred is the bet's amount
    times the whole pool divided by the winning side's pool, which is
    positive, with integer division truncating toward zero ([Z.quot]); it is
    non-negative and never exceeds the bettor's proportional share:
    [payout * winningSideTotal <= amount * (totalYesAmount + totalNoAmount)]. *)
Theorem payout_proportional (s : State) (tr : list ev) (env : Env) (m : nat)
    (s1 : State) (evs : list ev) (b : Bet) (mk : Market) :
  reach s tr -> bets s !! (m, caller env) = Some b -> markets s !! m = Some mk ->
  exec env (ClaimWinnings m) s = (inr tt, s1, evs) ->
  0 < winningSideTotal mk /\
  evs = [EvWriteBet m (caller env) (mkBet (amount b) (prediction b) true);
         EvPayout m (caller env)
           (Z.quot (amount b * (totalYesAmount mk + totalNoAmount mk))
                   (winningSideTotal mk))] /\
  0 <= payoutOf mk b /\
  payoutOf mk b * winningSideTotal mk
    <= amount b * (totalYesAmount mk + totalNoAmount mk).
Proof.
  intros Hr Hb Hm H.
  destruct (reach_inv s tr Hr) as (_ & _ & Hp & Hwf).
  destruct (Hwf _ _ _ Hb) as (mk' & Hm' & Hamt & _).
  rewrite Hm in Hm'. injection Hm' as <-.
  destruct (Hp _ _ Hm) as [Hy Hn].
  apply claimWinnings_ok_shape in H
    as (b' & mk' & Hb' & Hm' & _ & _ & _ & HW & _ & _ & Hevs & _).
  rewrite Hb in Hb'. injection Hb' as <-.
  rewrite Hm in Hm'. injection Hm' as <-.
  assert (HWpos : 0 < winningSideTotal mk).
  { unfold winningSideTotal in *. destruct (outcome mk); lia. }
  assert (Hnum : 0 <= amount b * (totalYesAmount mk + totalNoAmount mk)).
  { unfold MIN_BET in Hamt. nia. }
  unfold payoutOf. rewrite Z.quot_div_nonneg by lia.
  split_and!; [done | | apply Z.div_pos; lia | ].
  - rewrite Hevs. unfold payoutOf. rewrite Z.quot_div_nonneg by lia. done.
  - rewrite Z.mul_comm. apply Z.mul_div_le. done.
Qed.

Lemma payout_proportional_witness :
  let w := exec (e 604801 alice 0) (ClaimWinnings 0) st_resolved.1 in
  exists b mk,
  reach st_resolved.1 st_resolved.2 /\
  bets st_resolved.1 !! (0%nat, alice) = Some b /\
  markets st_resolved.1 !! 0%nat = Some mk /\
  exec (e 604801 alice 0) (ClaimWinnings 0) st_resolved.1 = (inr tt, w.1.2, w.2) /\
  (0 < winningSideTotal mk /\
   w.2 = [EvWriteBet 0 alice (mkBet (amount b) (prediction b) true);
          EvPayout 0 alice
            (Z.quot (amount b * (totalYesAmount mk + totalNoAmount mk))
                    (winningSideTotal mk))] /\
   0 <= payoutOf mk b /\
   payoutOf mk b * winningSideTotal mk
     <= amount b * (totalYesAmount mk + totalNoAmount mk)).
Proof.
  intros w.
  assert (Hr : reach st_resolved.1 st_resolved.2)
    by (exists scenario_resolved; apply surjective_pairing).
  destruct (bets st_resolved.1 !! (0%nat, alice)) as [b|] eqn:Hb;
    [|vm_compute in Hb; discriminate].
  destruct (markets st_resolved.1 !! 0%nat) as [mk|] eqn:Hm;
    [|vm_compute in Hm; discriminate].
  assert (Hx : exec (e 604801 alice 0) (ClaimWinnings 0) st_resolved.1
               = (inr tt, w.1.2, w.2)) by (vm_compute; reflexivity).
  exists b, mk. refine (conj Hr (conj eq_refl (conj eq_refl (conj Hx _)))).
  exact (payout_proportional _ _ (e 604801 alice 0) 0 _ _ _ _ Hr Hb Hm Hx).
Defined.

(** C6: a successful [placeBet] happens on an open market and records the
    bet with [claimed = false], so that [getBet] reports [(true, false)], and
    adds the amount to [totalYesAmount] for a [true] prediction and to
    [totalNoAmount] otherwise, the other pool unchanged. *)
Theorem placeBet_records (s : State) (env : Env) (m : nat) (pred : bool)
    (s1 : State) (evs : list ev) :
  exec env (PlaceBet m pred) s = (inr tt, s1, evs) ->
  exists mk, markets s !! m = Some mk /\ now env < endTime mk /\
    resolved mk = false /\
    bets s1 !! (m, caller env) = Some (mkBet (msg_value env) pred false) /\
    getBet s1 m (caller env) = (true, false) /\
    exists mk', markets s1 !! m = Some mk' /\
      totalYesAmount mk' = totalYesAmount mk + (if pred then msg_value env else 0) /\
      totalNoAmount mk' = totalNoAmount mk + (if pred then 0 else msg_value env).
Proof.
  intros H.
  apply placeBet_ok_shape in H
    as (mk & Hm & Hend & Hres & _ & _ & _ & Hbets & Hmarkets).
  assert (Hb1 : bets s1 !! (m, caller env) = Some (mkBet (msg_value env) pred false))
    by (rewrite Hbets; apply lookup_insert_eq).
  exists mk. split_and!; [done | done | done | done | |].
  - unfold getBet. rewrite Hb1. done.
  - eexists. rewrite Hmarkets, lookup_insert_eq. split_and!; [done | done | done].
Qed.

Lemma placeBet_records_witness :
  let pre := run (init, []) (take 1 scenario_open) in
  let w := exec (e 10 alice (ether / 10)) (PlaceBet 0 true) pre.1 in
  exec (e 10 alice (ether / 10)) (PlaceBet 0 true) pre.1 = (inr tt, w.1.2, w.2) /\
  exists mk, markets pre.1 !! 0%nat = Some mk /\ 10 < endTime mk /\
    resolved mk = false /\
    bets w.1.2 !! (0%nat, alice) = Some (mkBet (ether / 10) true false) /\
    getBet w.1.2 0 alice = (true, false) /\
    exists mk', markets w.1.2 !! 0%nat = Some mk' /\
      totalYesAmount mk' = totalYesAmount mk + ether / 10 /\
      totalNoAmount mk' = totalNoAmount mk + 0.
Proof.
  intros pre w.
  assert (Hx : exec (e 10 alice (ether / 10)) (PlaceBet 0 true) pre.1
               = (inr tt, w.1.2, w.2)) by (vm_compute; reflexivity).
  split; [exact Hx|].
  exact (placeBet_records _ _ _ _ _ _ Hx).
Defined.

(** C7: on a resolved market, a participant whose bet predicted the other
    side gets [NotAWinner] from [claimWinnings], with no state change and no
    transfer. *)
Theorem losing_claim_fails (s : State) (tr : list ev) (env : Env) (m : nat)
    (b : Bet) (mk : Market) :
  reach s tr -> bets s !! (m, caller env) = Some b -> markets s !! m = Some mk ->
  resolved mk = true -> prediction b <> outcome mk ->
  exec env (ClaimWinnings m) s = (inl NotAWinner, s, []).
Proof.
  intros Hr Hb Hm Hres Hlose.
  destruct (reach_inv s tr Hr) as (_ & _ & _ & Hwf).
  destruct (Hwf _ _ _ Hb) as (mk' & Hm' & _ & Hcl).
  rewrite Hm in Hm'. injection Hm' as <-.
  assert (Hc : claimed b = false).
  { destruct (claimed b); [|done]. destruct (Hcl eq_refl). congruence. }
  unfold_ops. cbn. rewrite Hb, Hm. cbn. rewrite Hres, Hc. cbn.
  destruct (prediction b), (outcome mk); cbn; congruence.
Qed.

Lemma losing_claim_fails_witness :
  exists b mk,
  reach st_resolved.1 st_resolved.2 /\
  bets st_resolved.1 !! (0%nat, bob) = Some b /\
  markets st_resolved.1 !! 0%nat = Some mk /\
  resolved mk = true /\ prediction b <> outcome mk /\
  exec (e 604801 bob 0) (ClaimWinnings 0) st_resolved.1
    = (inl NotAWinner, st_resolved.1, []).
Proof.
  assert (Hr : reach st_resolved.1 st_resolved.2)
    by (exists scenario_resolved; apply surjective_pairing).
  destruct (bets st_resolved.1 !! (0%nat, bob)) as [b|] eqn:Hb;
    [|vm_compute in Hb; discriminate].
  destruct (markets st_resolved.1 !! 0%nat) as [mk|] eqn:Hm;
    [|vm_compute in Hm; discriminate].
  assert (Hres : resolved mk = true)
    by (vm_compute in Hm; injection Hm as <-; reflexivity).
  assert (Hlose : prediction b <> outcome mk)
    by (vm_compute in Hb, Hm; injection Hb as <-; injection Hm as <-; discriminate).
  exists b, mk.
  refine (conj Hr (conj eq_refl (conj eq_refl (conj Hres (conj Hlose _))))).
  exact (losing_claim_fails _ _ (e 604801 bob 0) _ _ _ Hr Hb Hm Hres Hlose).
Defined.

(** C8 (counterexample): on the open market 0 of the scenario, a
    [resolveMarket] before [endTime] by a caller other than the creator
    fails with [Unauthorized], not [InvalidState] (the test suite's
    "should only allow creator to resolve market" expects exactly this). *)
Lemma early_resolve_by_other_unauthorized :
  (exec (e 100 alice 0) (ResolveMarket 0 true) st_open.1).1.1 = inl Unauthorized.
Proof. vm_compute. reflexivity. Qed.

(** C8 (amended): on an existing market, every [placeBet] at or after
    [endTime] fails with [InvalidState], and every [resolveMarket] before
    [endTime] fails, with [InvalidState] when the caller is the creator and
    with [Unauthorized] otherwise; neither changes anything. *)
Theorem no_early_action (s : State) (m : nat) (mk : Market) :
  markets s !! m = Some mk ->
  (forall (env : Env) (pred : bool), endTime mk <= now env ->
     exec env (PlaceBet m pred) s = (inl InvalidState, s, [])) /\
  (forall (env : Env) (o : bool), now env < endTime mk ->
     exec env (ResolveMarket m o) s =
       (inl (if Nat.eqb (caller env) (creator mk) then InvalidState
             else Unauthorized), s, [])).
Proof.
  intros Hm. split.
  - intros env pred Hend. unfold_ops. cbn. rewrite Hm. cbn.
    replace (now env <? endTime mk) with false by (symmetry; apply Z.ltb_ge; lia).
    done.
  - intros env o Hend. unfold_ops. cbn. rewrite Hm. cbn.
    destruct (Nat.eqb (caller env) (creator mk)); cbn; [|done].
    replace (endTime mk <=? now env) with false by (symmetry; apply Z.leb_gt; lia).
    done.
Qed.

Lemma no_early_action_witness :
  exists mk, markets st_open.1 !! 0%nat = Some mk /\
  ((forall (env : Env) (pred : bool), endTime mk <= now env ->
      exec env (PlaceBet 0 pred) st_open.1 = (inl InvalidState, st_open.1, [])) /\
   (forall (env : Env) (o : bool), now env < endTime mk ->
      exec env (ResolveMarket 0 o) st_open.1 =
        (inl (if Nat.eqb (caller env) (creator mk) then InvalidState
              else Unauthorized), st_open.1, []))).
Proof.
  destruct (markets st_open.1 !! 0%nat) as [mk|] eqn:Hm;
    [|vm_compute in Hm; discriminate].
  exists mk. split; [done|]. exact (no_early_action _ _ _ Hm).
Defined.

(** C9: on an existing market, [resolveMarket] and [emergencyWithdraw] by
    any caller other than the market's creator fail with [Unauthorized] and
    change nothing. *)
Theorem creator_only (s : State) (m : nat) (mk : Market) (env : Env) (o : bool) :
  markets s !! m = Some mk -> caller env <> creator mk ->
  exec env (ResolveMarket m o) s = (inl Unauthorized, s, []) /\
  exec env (EmergencyWithdraw m) s = (inl Unauthorized, s, []).
Proof.
  intros Hm Hc. apply Nat.eqb_neq in Hc.
  split; unfold_ops; cbn; rewrite Hm; cbn; rewrite Hc; done.
Qed.

Lemma creator_only_witness :
  exists mk, markets st_resolved.1 !! 0%nat = Some mk /\ alice <> creator mk /\
  (exec (e (604800 + EMERGENCY_TIMELOCK) alice 0) (ResolveMarket 0 false) st_resolved.1
     = (inl Unauthorized, st_resolved.1, []) /\
   exec (e (604800 + EMERGENCY_TIMELOCK) alice 0) (EmergencyWithdraw 0) st_resolved.1
     = (inl Unauthorized, st_resolved.1, [])).
Proof.
  destruct (markets st_resolved.1 !! 0%nat) as [mk|] eqn:Hm;
    [|vm_compute in Hm; discriminate].
  assert (Hc : alice <> creator mk)
    by (vm_compute in Hm; injection Hm as <-; discriminate).
  exists mk. refine (conj eq_refl (conj Hc _)).
  exact (creator_only _ _ _ (e (604800 + EMERGENCY_TIMELOCK) alice 0) false Hm Hc).
Defined.

(** C10 (counterexample): a [placeBet] with an amount of 0, below
    [MIN_BET], fails with [NotFound] on a market that does not exist and
    with [InvalidState] on a market that has ended, not with
    [InvalidArgument]: existence and the market's state are checked before
    the amount. *)
Lemma bad_amount_other_errors :
  (exec (e 10 alice 0) (PlaceBet 7 true) st_open.1).1.1 = inl NotFound /\
  (exec (e 604800 alice 0) (PlaceBet 0 true) st_open.1).1.1 = inl InvalidState.
Proof. vm_compute. split; reflexivity. Qed.

(** C10 (amended): [createMarket] with an empty question or a duration
    [<= 0] fails with [InvalidArgument]; [placeBet] on an existing, open
    (before [endTime], unresolved) market with an amount below [MIN_BET] or
    above [MAX_BET] fails with [InvalidArgument]; in each case no market or
    bet is created and nothing changes. *)
Theorem bad_arguments (s : State) :
  (forall (env : Env) (q : string) (d : Z), q = ""%string \/ d <= 0 ->
     exec env (CreateMarket q d) s = (inl InvalidArgument, s, [])) /\
  (forall (env : Env) (m : nat) (pred : bool) (mk : Market),
     markets s !! m = Some mk -> now env < endTime mk -> resolved mk = false ->
     msg_value env < MIN_BET \/ MAX_BET < msg_value env ->
     exec env (PlaceBet m pred) s = (inl InvalidArgument, s, [])).
Proof.
  split.
  - intros env q d Hbad. unfold_ops. cbn.
    destruct Hbad as [-> | Hd]; [done|].
    destruct (negb (String.eqb q "")); cbn; [|done].
    replace (0 <? d) with false by (symmetry; apply Z.ltb_ge; lia). done.
  - intros env m pred mk Hm Hend Hres Hamt. unfold_ops. cbn. rewrite Hm. cbn.
    replace (now env <? endTime mk) with true by (symmetry; apply Z.ltb_lt; lia).
    rewrite Hres. cbn.
    replace ((MIN_BET <=? msg_value env) && (msg_value env <=? MAX_BET)) with false;
      [done|].
    symmetry. apply andb_false_iff.
    destruct Hamt; [left; apply Z.leb_gt | right; apply Z.leb_gt]; lia.
Qed.

Lemma bad_arguments_witness :
  exists mk, markets st_open.1 !! 0%nat = Some mk /\
  exec (e 100 alice 0) (CreateMarket "" 604800) st_open.1
    = (inl InvalidArgument, st_open.1, []) /\
  exec (e 100 alice 0) (CreateMarket "Zero duration" 0) st_open.1
    = (inl InvalidArgument, st_open.1, []) /\
  exec (e 100 alice (ether / 10000)) (PlaceBet 0 true) st_open.1
    = (inl InvalidArgument, st_open.1, []) /\
  exec (e 100 alice (11 * ether)) (PlaceBet 0 true) st_open.1
    = (inl InvalidArgument, st_open.1, []).
Proof.
  destruct (markets st_open.1 !! 0%nat) as [mk|] eqn:Hm;
    [|vm_compute in Hm; discriminate].
  assert (Hend : now (e 100 alice 0) < endTime mk)
    by (vm_compute in Hm; injection Hm as <-; reflexivity).
  assert (Hres : resolved mk = false)
    by (vm_compute in Hm; injection Hm as <-; reflexivity).
  destruct (bad_arguments st_open.1) as [Hc Hp].
  exists mk. split_and!; [done | | | |].
  - apply Hc. left. done.
  - apply Hc. right. lia.
  - apply (Hp _ _ _ mk Hm); [exact Hend | exact Hres | left; vm_compute; done].
  - apply (Hp _ _ _ mk Hm); [exact Hend | exact Hres | right; vm_compute; done].
Defined.

(** * Further properties *)

(** ** PredictionMarket *)

(** X1: a winner's successful [claimWinnings] pays at least the amount of
    the bet, and exactly that amount when nobody bet on the losing side. *)
Theorem payout_covers_stake (s : State) (tr : list ev) (env : Env) (m : nat)
    (s1 : State) (evs : list ev) (b : Bet) (mk : Market) :
  reach s tr -> bets s !! (m, caller env) = Some b -> markets s !! m = Some mk ->
  exec env (ClaimWinnings m) s = (inr tt, s1, evs) ->
  amount b <= payoutOf mk b /\
  ((if outcome mk then totalNoAmount mk else totalYesAmount mk) = 0 ->
   payoutOf mk b = amount b).
Proof.
  intros Hr Hb Hm H.
  destruct (reach_inv s tr Hr) as (_ & _ & Hp & Hwf).
  destruct (Hwf _ _ _ Hb) as (mk' & Hm' & Hamt & _).
  rewrite Hm in Hm'. injection Hm' as <-.
  destruct (Hp _ _ Hm) as [Hy Hn].
  apply claimWinnings_ok_shape in H as (b' & mk' & Hb' & Hm' & _ & _ & _ & HW & _).
  rewrite Hb in Hb'. injection Hb' as <-.
  rewrite Hm in Hm'. injection Hm' as <-.
  assert (Ha : 0 <= amount b) by (unfold MIN_BET in Hamt; lia).
  unfold payoutOf, winningSideTotal in *.
  destruct (outcome mk); split.
  - rewrite Z.quot_div_nonneg by nia.
    apply Z.div_le_lower_bound; nia.
  - intros H0. rewrite H0, Z.add_0_r, Z.quot_mul; lia.
  - rewrite Z.quot_div_nonneg by nia.
    apply Z.div_le_lower_bound; nia.
  - intros H0. rewrite H0, Z.add_0_l, Z.quot_mul; lia.
Qed.

Lemma payout_covers_stake_witness :
  let w := exec (e 604801 alice 0) (ClaimWinnings 0) st_resolved.1 in
  exists b mk,
  reach st_resolved.1 st_resolved.2 /\
  bets st_resolved.1 !! (0%nat, alice) = Some b /\
  markets st_resolved.1 !! 0%nat = Some mk /\
  exec (e 604801 alice 0) (ClaimWinnings 0) st_resolved.1 = (inr tt, w.1.2, w.2) /\
  (amount b <= payoutOf mk b /\
   ((if outcome mk then totalNoAmount mk else totalYesAmount mk) = 0 ->
    payoutOf mk b = amount b)).
Proof.
  intros w.
  assert (Hr : reach st_resolved.1 st_resolved.2)
    by (exists scenario_resolved; apply surjective_pairing).
  destruct (bets st_resolved.1 !! (0%nat, alice)) as [b|] eqn:Hb;
    [|vm_compute in Hb; discriminate].
  destruct (markets st_resolved.1 !! 0%nat) as [mk|] eqn:Hm;
    [|vm_compute in Hm; discriminate].
  assert (Hx : exec (e 604801 alice 0) (ClaimWinnings 0) st_resolved.1
               = (inr tt, w.1.2, w.2)) by (vm_compute; reflexivity).
  exists b, mk. refine (conj Hr (conj eq_refl (conj eq_refl (conj Hx _)))).
  exact (payout_covers_stake _ _ (e 604801 alice 0) 0 _ _ _ _ Hr Hb Hm Hx).
Defined.

(** X2: after a successful [resolveMarket], whatever transactions follow,
    [emergencyWithdraw] on that market fails and changes nothing until
    [EMERGENCY_TIMELOCK] seconds have passed since the resolution: with
    [InvalidState] for the creator, with [Unauthorized] for anyone else. *)
Theorem emergency_timelock (s : State) (tr : list ev) (env : Env) (m : nat)
    (o : bool) (s1 : State) (evs : list ev) :
  reach s tr -> exec env (ResolveMarket m o) s = (inr tt, s1, evs) ->
  forall (cs : list (Env * call)) (env' : Env),
    let s2 := (run (s1, tr ++ evs) cs).1 in
    now env' < now env + EMERGENCY_TIMELOCK ->
    exec env' (EmergencyWithdraw m) s2 =
      (inl (if Nat.eqb (caller env') (caller env) then InvalidState
            else Unauthorized), s2, []).
Proof.
  intros Hr H cs env' s2 Hearly.
  pose proof (inv_step env _ s tr _ s1 evs (reach_inv s tr Hr) H) as HI.
  apply resolveMarket_ok_shape in H as (mk0 & _ & Hcr & _ & _ & ->).
  assert (Hm2 : markets s2 !! m = Some (mkMarket (id mk0) (question mk0) (creator mk0)
                  (createdAt mk0) (endTime mk0) true o (now env)
                  (totalYesAmount mk0) (totalNoAmount mk0)))
    by (apply run_resolved; [done | cbn; apply lookup_insert_eq | done]).
  clearbody s2. unfold_ops. cbn. rewrite Hm2. cbn. rewrite Hcr.
  destruct (Nat.eqb (caller env') (creator mk0)); cbn; [|done].
  replace (now env + EMERGENCY_TIMELOCK <=? now env') with false
    by (symmetry; apply Z.leb_gt; lia).
  done.
Qed.

Lemma emergency_timelock_witness :
  let w := exec (e 604800 creatorA 0) (ResolveMarket 0 true) st_open.1 in
  reach st_open.1 st_open.2 /\
  exec (e 604800 creatorA 0) (ResolveMarket 0 true) st_open.1 = (inr tt, w.1.2, w.2) /\
  forall (cs : list (Env * call)) (env' : Env),
    let s2 := (run (w.1.2, st_open.2 ++ w.2) cs).1 in
    now env' < 604800 + EMERGENCY_TIMELOCK ->
    exec env' (EmergencyWithdraw 0) s2 =
      (inl (if Nat.eqb (caller env') creatorA then InvalidState else Unauthorized),
       s2, []).
Proof.
  intros w.
  assert (Hr : reach st_open.1 st_open.2)
    by (exists scenario_open; apply surjective_pairing).
  assert (Hx : exec (e 604800 creatorA 0) (ResolveMarket 0 true) st_open.1
               = (inr tt, w.1.2, w.2)) by (vm_compute; reflexivity).
  refine (conj Hr (conj Hx _)).
  exact (emergency_timelock _ _ (e 604800 creatorA 0) 0 true _ _ Hr Hx).
Defined.

(** X3: in a reachable state, [placeBet], [resolveMarket], [claimWinnings]
    and [emergencyWithdraw] on a market id at or above [marketCount] fail
    with [NotFound] and change nothing. *)
Theorem unknown_market_not_found (s : State) (tr : list ev) (m : nat) :
  reach s tr -> (marketCount s <= m)%nat ->
  forall (env : Env) (pred o : bool),
    exec env (PlaceBet m pred) s = (inl NotFound, s, []) /\
    exec env (ResolveMarket m o) s = (inl NotFound, s, []) /\
    exec env (ClaimWinnings m) s = (inl NotFound, s, []) /\
    exec env (EmergencyWithdraw m) s = (inl NotFound, s, []).
Proof.
  intros Hr Hle env pred o.
  destruct (reach_inv s tr Hr) as (Hf & _ & _ & Hwf).
  assert (Hm : markets s !! m = None) by (apply Hf; done).
  assert (Hb : bets s !! (m, caller env) = None).
  { destruct (bets s !! (m, caller env)) as [b|] eqn:Hb; [|done].
    destruct (Hwf _ _ _ Hb) as (mk & Hmk & _). congruence. }
  unfold_ops; cbn; rewrite ?Hm, ?Hb; split_and!; done.
Qed.

Lemma unknown_market_not_found_witness :
  reach st_open.1 st_open.2 /\ (marketCount st_open.1 <= 999)%nat /\
  forall (env : Env) (pred o : bool),
    exec env (PlaceBet 999 pred) st_open.1 = (inl NotFound, st_open.1, []) /\
    exec env (ResolveMarket 999 o) st_open.1 = (inl NotFound, st_open.1, []) /\
    exec env (ClaimWinnings 999) st_open.1 = (inl NotFound, st_open.1, []) /\
    exec env (EmergencyWithdraw 999) st_open.1 = (inl NotFound, st_open.1, []).
Proof.
  assert (Hr : reach st_open.1 st_open.2)
    by (exists scenario_open; apply surjective_pairing).
  assert (Hle : (marketCount st_open.1 <= 999)%nat) by (vm_compute; lia).
  refine (conj Hr (conj Hle _)).
  exact (unknown_market_not_found _ _ 999 Hr Hle).
Defined.

(** X4: in a reachable state the markets are exactly the ids
    [0 .. marketCount - 1], and the market stored under id [m] has [id = m]. *)
Theorem market_ids_dense (s : State) (tr : list ev) :
  reach s tr ->
  forall m, (is_Some (markets s !! m) <-> (m < marketCount s)%nat) /\
            forall mk, markets s !! m = Some mk -> id mk = m.
Proof. intros Hr. exact (reach_ids_dense s tr Hr). Qed.

Lemma market_ids_dense_witness :
  reach st_settled.1 st_settled.2 /\
  forall m, (is_Some (markets st_settled.1 !! m) <-> (m < marketCount st_settled.1)%nat) /\
            forall mk, markets st_settled.1 !! m = Some mk -> id mk = m.
Proof.
  assert (Hr : reach st_settled.1 st_settled.2)
    by (exists scenario_settled; apply surjective_pairing).
  exact (conj Hr (market_ids_dense _ _ Hr)).
Defined.

(** X5: a successful [createMarket] has a non-empty question and a positive
    duration; it stores the new market, unresolved with empty pools and
    created by the caller, under the id [marketCount], which was free, and
    increments [marketCount]; other markets, the bets and the escrow are
    unchanged. *)
Theorem createMarket_appends (s : State) (tr : list ev) (env : Env) (q : string)
    (d : Z) (s1 : State) (evs : list ev) :
  reach s tr -> exec env (CreateMarket q d) s = (inr tt, s1, evs) ->
  q <> ""%string /\ 0 < d /\
  markets s !! marketCount s = None /\
  markets s1 !! marketCount s =
    Some (mkMarket (marketCount s) q (caller env) (now env) (now env + d)
                   false false 0 0 0) /\
  marketCount s1 = S (marketCount s) /\
  (forall m, m <> marketCount s -> markets s1 !! m = markets s !! m) /\
  bets s1 = bets s /\ escrow s1 = escrow s.
Proof.
  intros Hr H.
  destruct (reach_inv s tr Hr) as (Hf & _).
  crunch.
  repeat match goal with
  | H : negb (_ =? _)%string = true |- _ =>
      apply negb_true_iff, String.eqb_neq in H
  | H : (_ <? _) = true |- _ => apply Z.ltb_lt in H
  end.
  split_and!; cbn; try done.
  - apply Hf. lia.
  - apply lookup_insert_eq.
  - intros m Hne. apply lookup_insert_ne. done.
Qed.

Lemma createMarket_appends_witness :
  let w := exec (e 20 bob 0) (CreateMarket "Second market" 3600) st_open.1 in
  reach st_open.1 st_open.2 /\
  exec (e 20 bob 0) (CreateMarket "Second market" 3600) st_open.1
    = (inr tt, w.1.2, w.2) /\
  ("Second market" <> ""%string /\ 0 < 3600 /\
   markets st_open.1 !! marketCount st_open.1 = None /\
   markets w.1.2 !! marketCount st_open.1 =
     Some (mkMarket (marketCount st_open.1) "Second market" bob 20 (20 + 3600)
                    false false 0 0 0) /\
   marketCount w.1.2 = S (marketCount st_open.1) /\
   (forall m, m <> marketCount st_open.1 -> markets w.1.2 !! m = markets st_open.1 !! m) /\
   bets w.1.2 = bets st_open.1 /\ escrow w.1.2 = escrow st_open.1).
Proof.
  intros w.
  assert (Hr : reach st_open.1 st_open.2)
    by (exists scenario_open; apply surjective_pairing).
  assert (Hx : exec (e 20 bob 0) (CreateMarket "Second market" 3600) st_open.1
               = (inr tt, w.1.2, w.2)) by (vm_compute; reflexivity).
  refine (conj Hr (conj Hx _)).
  exact (createMarket_appends _ _ (e 20 bob 0) _ _ _ _ Hr Hx).
Defined.

(** X6: in a reachable state, as long as a market is unresolved (or does
    not exist), nothing has been paid out of its escrow: the history holds
    no payout from it. *)
Theorem no_payout_before_resolution (s : State) (tr : list ev) (m : nat) :
  reach s tr ->
  (markets s !! m = None \/
   exists mk, markets s !! m = Some mk /\ resolved mk = false) ->
  (forall p a, EvPayout m p a ∉ tr) /\ paid_out m tr = 0.
Proof.
  intros Hr Hopen.
  assert (Hu : forall p a, EvPayout m p a ∉ tr).
  { apply (reach_unpaid s tr Hr).
    destruct Hopen as [-> | (mk & -> & Hres)]; done. }
  split; [done|].
  apply paid_out_none. done.
Qed.

Lemma no_payout_before_resolution_witness :
  reach st_open.1 st_open.2 /\
  (markets st_open.1 !! 0%nat = None \/
   exists mk, markets st_open.1 !! 0%nat = Some mk /\ resolved mk = false) /\
  (forall p a, EvPayout 0 p a ∉ st_open.2) /\ paid_out 0 st_open.2 = 0.
Proof.
  assert (Hr : reach st_open.1 st_open.2)
    by (exists scenario_open; apply surjective_pairing).
  assert (Ho : markets st_open.1 !! 0%nat = None \/
               exists mk, markets st_open.1 !! 0%nat = Some mk /\ resolved mk = false).
  { right. destruct (markets st_open.1 !! 0%nat) as [mk|] eqn:Hm;
      [|vm_compute in Hm; discriminate].
    exists mk. split; [reflexivity|]. vm_compute in Hm. injection Hm as <-.
    reflexivity. }
  refine (conj Hr (conj Ho _)).
  exact (no_payout_before_resolution _ _ 0 Hr Ho).
Defined.

(** ** FHECounter *)

Module CounterProps.

Import FHEVM FHEVMFacts FHECounter CounterFacts.



(** The test suite's two users: after alice adds 10 and bob adds 20, bob
    decrypts 30 and alice can no longer decrypt the count. *)
Example counter_two_users :
  let sh := run 100%nat [Increment alice 10; Increment bob 20] in
  userDecrypt sh.2 100%nat (getCount sh.1) bob = Some 30 /\
  userDecrypt sh.2 100%nat (getCount sh.1) alice = None.
Proof. vm_compute. split; reflexivity. Qed.

(** X8: after any sequence of transactions from the deployment, the count
    holds the modular sum of the increments and decrements since the last
    reset; before any transaction it is the uninitialised handle 0; and the
    sender of the last transaction decrypts it. *)
Theorem counter_history (self : addr) (ops : list op) :
  plain (run self ops).2 (getCount (run self ops).1) = net ops /\
  (ops = [] -> getCount (run self ops).1 = 0%N) /\
  forall o, last ops = Some o ->
    userDecrypt (run self ops).2 self (getCount (run self ops).1) (sender_of o)
    = Some (net ops).
Proof.
  pose proof (counter_fold self ops deploy host0 (counter_deploy_inv self))
    as (_ & Hp & Hl).
  unfold run, net, getCount. split_and!.
  - rewrite Hp. done.
  - intros ->. done.
  - intros o Ho. destruct (Hl ltac:(intros ->; discriminate)) as (o' & Ho' & Hct).
    rewrite Ho in Ho'. injection Ho' as <-.
    erewrite userDecrypt_pair by exact Hct. rewrite Nat.eqb_refl. done.
Qed.

End CounterProps.

(** ** EncryptSingleValue *)

Module ESVProps.

Import FHEVM FHEVMFacts EncryptSingleValue.


End ESVProps.

(** ** FHEAdd *)

Module AddProps.

Import FHEVM FHEVMFacts.



End AddProps.

(** ** AccessControlExample *)

Module ACEProps.

Import FHEVM FHEVMFacts AccessControlExample ACEFacts.





End ACEProps.
